(** * googleanalytics_exporter: the metric collection and registration core

    A shallow embedding of [ganalytics.go].  The Go program polls the Google
    Analytics RealTime API and republishes the rows it gets as Prometheus
    gauges.  Strings are Go strings, i.e. byte sequences ([string] of
    [ascii]); Go maps are [gmap]s; the package-level variables [promGauge],
    [promGaugeVec] and the default Prometheus registry are fields of an
    explicit program state; a [panic] is an outcome of its own. *)

From Stdlib Require Import ZArith List Ascii String Bool Lia.
From Stdlib Require Import Floats.SpecFloat.
From stdpp Require Import base option list strings gmap fin_maps.

Local Open Scope string_scope.

(** ** Bytes *)

Definition byte_le (a b : ascii) : bool := (N_of_ascii a <=? N_of_ascii b)%N.

Definition in_range (lo hi c : ascii) : bool := byte_le lo c && byte_le c hi.

Definition lower (c : ascii) : ascii :=
  if in_range "A" "Z" c then ascii_of_N (N_of_ascii c + 32) else c.

Definition is_digit (c : ascii) : bool := in_range "0" "9" c.

(** ASCII letter or digit. *)
Definition is_alnum (c : ascii) : bool :=
  in_range "a" "z" c || in_range "A" "Z" c || in_range "0" "9" c.

Fixpoint string_filter (p : ascii -> bool) (s : string) : string :=
  match s with
  | EmptyString => EmptyString
  | String c s' => if p c then String c (string_filter p s') else string_filter p s'
  end.

Fixpoint string_forallb (p : ascii -> bool) (s : string) : bool :=
  match s with
  | EmptyString => true
  | String c s' => p c && string_forallb p s'
  end.

(** [occurs c s]: the byte [c] occurs in [s]. *)
Fixpoint occurs (c : ascii) (s : string) : Prop :=
  match s with
  | EmptyString => False
  | String d s' => c = d \/ occurs c s'
  end.

(** ** Package strings *)

Module strings.

(** [HasPrefix s prefix]. *)
Fixpoint HasPrefix (s prefix : string) {struct prefix} : bool :=
  match prefix, s with
  | EmptyString, _ => true
  | String p prefix', String c s' => if Ascii.eqb c p then HasPrefix s' prefix' else false
  | String _ _, EmptyString => false
  end.

(** [Contains s substr]: [substr] occurs somewhere within [s]. *)
Fixpoint Contains (s substr : string) : bool :=
  HasPrefix s substr ||
  match s with
  | EmptyString => false
  | String _ s' => Contains s' substr
  end.

(** [Join elems sep]. *)
Fixpoint Join (elems : list string) (sep : string) : string :=
  match elems with
  | [] => EmptyString
  | [e] => e
  | e :: rest => e +:+ sep +:+ Join rest sep
  end.

(** The scan of [Replace]: [skip] bytes of a match already replaced are
    still to be dropped; [n] replacements remain ([n < 0]: no limit).
    Matches are found left to right and do not overlap. *)
Fixpoint replace_from (skip : nat) (s old new : string) (n : Z) : string :=
  match s with
  | EmptyString => EmptyString
  | String c s' =>
      match skip with
      | S k => replace_from k s' old new n
      | O =>
          if negb (n =? 0)%Z && HasPrefix s old
          then new +:+ replace_from (String.length old - 1) s' old new (n - 1)
          else String c (replace_from 0 s' old new n)
      end
  end.

(** [Replace s old new n] for a non-empty [old], which is how the program
    calls it (with the one-byte patterns ":" and " ").  With an empty
    [old] Go inserts [new] around every rune; that case is not needed and
    is left as the identity. *)
Definition Replace (s old new : string) (n : Z) : string :=
  match old with
  | EmptyString => s
  | String _ _ => replace_from 0 s old new n
  end.

End strings.

(** ** Package regexp: the fragment used by the exporter *)

Module regexp.

(** A compiled expression of the form [[...]+] or [[^...]+]: one bracket
    expression of single bytes and byte ranges, repeated one or more
    times.  Go's regexp works on runes; every byte of a multi-byte or
    invalid UTF-8 sequence is at least 0x80, so with ASCII ranges a
    negated class matches such a sequence byte by byte, and a class that
    is not negated never matches inside one. *)
Record Regexp : Type := mkRegexp { negated : bool; ranges : list (ascii * ascii) }.

(** The items of a bracket expression up to its closing bracket. *)
Fixpoint parseClass (s : string) : option (list (ascii * ascii) * string) :=
  match s with
  | EmptyString => None
  | String c rest =>
      if Ascii.eqb c "]" then Some ([], rest)
      else if Ascii.eqb c "\" || Ascii.eqb c "[" then None
      else
        let single :=
          match parseClass rest with
          | Some (rs, rest') => Some ((c, c) :: rs, rest')
          | None => None
          end in
        match rest with
        | String d (String hi rest2) =>
            if Ascii.eqb d "-" && negb (Ascii.eqb hi "]") then
              if byte_le c hi then
                match parseClass rest2 with
                | Some (rs, rest') => Some ((c, hi) :: rs, rest')
                | None => None
                end
              else None
            else single
        | _ => single
        end
  end.

(** [Compile]: [None] stands for the error result (a nil [*Regexp]).
    Patterns outside the fragment are rejected by this model. *)
Definition Compile (expr : string) : option Regexp :=
  match expr with
  | EmptyString => None
  | String c rest =>
      if Ascii.eqb c "[" then
        let '(neg, items) :=
          match rest with
          | EmptyString => (false, rest)
          | String d rest' => if Ascii.eqb d "^" then (true, rest') else (false, rest)
          end in
        match parseClass items with
        | Some (r :: rs, tail) =>
            if String.eqb tail "+" then Some (mkRegexp neg (r :: rs)) else None
        | _ => None
        end
      else None
  end.

Definition in_class (re : Regexp) (c : ascii) : bool :=
  xorb (negated re) (existsb (fun r => in_range (fst r) (snd r) c) (ranges re)).

(** The scan of [ReplaceAllString]: [inside] tells that the previous byte
    belongs to the match in progress, whose replacement is already out. *)
Fixpoint replace_runs (re : Regexp) (inside : bool) (src repl : string) : string :=
  match src with
  | EmptyString => EmptyString
  | String c src' =>
      if in_class re c then
        if inside then replace_runs re true src' repl
        else repl +:+ replace_runs re true src' repl
      else String c (replace_runs re false src' repl)
  end.

(** [re.ReplaceAllString(src, repl)] for a [repl] without [$]: every match,
    a maximal run of bytes of the class, is replaced by [repl]. *)
Definition ReplaceAllString (re : Regexp) (src repl : string) : string :=
  replace_runs re false src repl.

End regexp.

(** ** float64 and package strconv *)

(** IEEE 754 binary64 values as the specification floats of the standard
    library: precision 53, maximal exponent 1024. *)
Definition float64 : Type := spec_float.
Definition prec64 : Z := 53.
Definition emax64 : Z := 1024.

Definition zero64 : float64 := S754_zero false.
Definition Inf (negative : bool) : float64 := S754_infinity negative.

(** What [strconv.ParseFloat(s, 64)] returns, a pair [(f, err)], by the
    cases of its documentation: [err = nil] and the nearest float; or
    [err.Err = ErrSyntax] for a string that is not well formed, with
    [f = 0]; or [err.Err = ErrRange] for a well-formed number beyond the
    largest float, with [f = ±Inf]. *)
Inductive parsed : Type :=
  | Parsed (f : float64)
  | ErrSyntax
  | ErrRange (negative : bool).

(** The first component of the pair, what [valf, _ := ...] keeps. *)
Definition value_of (r : parsed) : float64 :=
  match r with
  | Parsed f => f
  | ErrSyntax => zero64
  | ErrRange negative => Inf negative
  end.

(** The second component is not nil. *)
Definition failed (r : parsed) : bool :=
  match r with
  | Parsed _ => false
  | _ => true
  end.

Module strconv.

Fixpoint map_bytes (f : ascii -> ascii) (s : string) : string :=
  match s with
  | EmptyString => EmptyString
  | String c s' => String (f c) (map_bytes f s')
  end.

(** Leading decimal digits of [s]: their value on top of [acc], how many
    there are, and what follows them. *)
Fixpoint read_digits (s : string) (acc : Z) (n : nat) : Z * nat * string :=
  match s with
  | EmptyString => (acc, n, s)
  | String c s' =>
      if is_digit c
      then read_digits s' (10 * acc + Z.of_N (N_of_ascii c - 48)) (S n)
      else (acc, n, s)
  end.

Definition read_sign (s : string) : bool * string :=
  match s with
  | EmptyString => (false, s)
  | String c s' =>
      if Ascii.eqb c "+" then (false, s')
      else if Ascii.eqb c "-" then (true, s')
      else (false, s)
  end.

(** The optional exponent part: [Some (e, rest)], or [None] when an
    exponent letter is followed by no digit. *)
Definition read_exponent (s : string) : option (Z * string) :=
  match s with
  | EmptyString => Some (0%Z, s)
  | String c s' =>
      if Ascii.eqb (lower c) "e" then
        let '(neg, s1) := read_sign s' in
        let '(e, n, rest) := read_digits s1 0 0 in
        match n with
        | O => None
        | S _ => Some (if neg then (- e)%Z else e, rest)
        end
      else Some (0%Z, s)
  end.

(** The float nearest to [m * 10^e] (ties to even), for [m > 0]. *)
Definition nearest (negative : bool) (m : positive) (e : Z) : float64 :=
  match e with
  | Zneg k =>
      SFdiv prec64 emax64 (S754_finite negative m 0)
                          (S754_finite false (10 ^ k) 0)
  | _ => binary_normalize prec64 emax64
           ((if negative then Zneg m else Zpos m) * 10 ^ e) 0 false
  end.

(** A decimal literal: sign, digits with at most one point and at least
    one digit, optional exponent, nothing after it. *)
Definition parse_decimal (s : string) : parsed :=
  let '(negative, s0) := read_sign s in
  let '(ip, ni, s1) := read_digits s0 0 0 in
  let '(m, nf, s2) :=
    match s1 with
    | String c s1' =>
        if Ascii.eqb c "." then
          let '(m, nf, s2) := read_digits s1' ip 0 in (m, nf, s2)
        else (ip, O, s1)
    | EmptyString => (ip, O, s1)
    end in
  match (ni + nf)%nat, read_exponent s2 with
  | S _, Some (e, EmptyString) =>
      match m with
      | Zpos p =>
          match nearest negative p (e - Z.of_nat nf) with
          | S754_infinity sg => ErrRange sg
          | f => Parsed f
          end
      | _ => Parsed (S754_zero negative)
      end
  | _, _ => ErrSyntax
  end.

(** [ParseFloat(s, 64)] on the special values and on decimal literals.
    Hexadecimal mantissas and underscores between digits, which Go
    accepts as well, are outside this instance: it rejects them.  The
    development below is parametric in the parser and does not rely on
    this choice; the instance serves the examples. *)
Definition ParseFloat (s : string) : parsed :=
  let '(negative, body) := read_sign s in
  let l := map_bytes lower body in
  if String.eqb l "inf" || String.eqb l "infinity" then Parsed (Inf negative)
  else if String.eqb (map_bytes lower s) "nan" then Parsed S754_nan
  else parse_decimal s.

End strconv.

(** ** Package unicode/utf8 *)

Module utf8.

Definition between (lo hi : N) (c : ascii) : bool :=
  ((lo <=? N_of_ascii c) && (N_of_ascii c <=? hi))%N.

(** [ValidString s]: [s] consists entirely of valid UTF-8 encodings. *)
Fixpoint ValidString (s : string) : bool :=
  match s with
  | EmptyString => true
  | String c0 r0 =>
      if between 0 127 c0 then ValidString r0
      else if between 194 223 c0 then
        match r0 with
        | String c1 r1 => between 128 191 c1 && ValidString r1
        | _ => false
        end
      else if between 224 239 c0 then
        match r0 with
        | String c1 (String c2 r2) =>
            (if between 224 224 c0 then between 160 191 c1
             else if between 237 237 c0 then between 128 159 c1
             else between 128 191 c1)
            && between 128 191 c2 && ValidString r2
        | _ => false
        end
      else if between 240 244 c0 then
        match r0 with
        | String c1 (String c2 (String c3 r3)) =>
            (if between 240 240 c0 then between 144 191 c1
             else if between 244 244 c0 then between 128 143 c1
             else between 128 191 c1)
            && between 128 191 c2 && between 128 191 c3 && ValidString r3
        | _ => false
        end
      else false
  end.

End utf8.

(** ** Package prometheus: descriptors, collectors and the registry *)

Module prometheus.

(** [GaugeOpts]. *)
Record GaugeOpts : Type := mkOpts {
  Name : string;
  Help : string;
  ConstLabels : gmap string string
}.

(** A descriptor: the fully-qualified name, the help string, the constant
    label pairs and the names of the variable labels. *)
Record Desc : Type := mkDesc {
  fqName : string;
  help : string;
  constLabels : gmap string string;
  variableLabels : list string
}.

Definition name_byte (c : ascii) : bool :=
  is_alnum c || Ascii.eqb c "_" || Ascii.eqb c ":".

(** Metric names match [[a-zA-Z_:][a-zA-Z0-9_:]*]. *)
Definition IsValidMetricName (n : string) : bool :=
  match n with
  | EmptyString => false
  | String c _ => negb (is_digit c) && string_forallb name_byte n
  end.

(** Label names match [[a-zA-Z_][a-zA-Z0-9_]*] and do not start with two
    underscores. *)
Definition checkLabelName (l : string) : bool :=
  match l with
  | EmptyString => false
  | String c _ =>
      negb (is_digit c)
      && string_forallb (fun b => is_alnum b || Ascii.eqb b "_") l
      && negb (strings.HasPrefix l "__")
  end.

Definition constNames (d : Desc) : list string := (map_to_list (constLabels d)).*1.
Definition constValues (d : Desc) : list string := (map_to_list (constLabels d)).*2.

(** The error [NewDesc] leaves in the descriptor: [true] when it is not
    nil. *)
Definition descErr (d : Desc) : bool :=
  negb (IsValidMetricName (fqName d))
  || negb (forallb checkLabelName (constNames d))
  || negb (forallb utf8.ValidString (fqName d :: constValues d))
  || negb (forallb checkLabelName (variableLabels d))
  || negb (bool_decide (NoDup (constNames d ++ variableLabels d))).

(** The two hashes of a descriptor, taken as the data they are hashes of:
    [descID] identifies the name together with the constant label values,
    [dimHash] the help string together with all label names, constant and
    variable ones apart and in no order. *)
Definition descID (d : Desc) : string * list string :=
  (fqName d, constValues d).

Definition dimHash (d : Desc) : string * gset string * gset string :=
  (help d, dom (constLabels d), list_to_set (variableLabels d)).

(** A collector object: a [Gauge] with its value, or a [GaugeVec] with
    the values of its children by label values. *)
Inductive Collector : Type :=
  | Gauge (desc : Desc) (val : float64)
  | GaugeVec (desc : Desc) (children : gmap (list string) float64).

Definition Describe (c : Collector) : Desc :=
  match c with
  | Gauge d _ => d
  | GaugeVec d _ => d
  end.

Definition isGaugeVec (c : Collector) : bool :=
  match c with
  | GaugeVec _ _ => true
  | Gauge _ _ => false
  end.

(** The registry, for collectors of one descriptor each: the registered
    collector (an address) by descriptor id, and the dimension hash by
    name.  The process and Go run-time collectors that the library
    registers on its own have names starting with [process_] and [go_];
    they do not meet the names of this program and are left out. *)
Record Registry : Type := mkRegistry {
  collectorsByID : gmap (string * list string) nat;
  dimHashesByName : gmap string (string * gset string * gset string)
}.

(** The errors of [Register]. *)
Inductive RegisterError : Type :=
  | AlreadyRegisteredError (ExistingCollector : nat)
  | InvalidDescriptor
  | InconsistentDescriptor.

(** The errors behind the panic of [WithLabelValues]. *)
Inductive LabelError : Type :=
  | InconsistentCardinality
  | InvalidUTF8.

(** [Register] of a collector at address [c] with descriptor [d]: the new
    registry, or the error. *)
Definition register (r : Registry) (c : nat) (d : Desc) : Registry + RegisterError :=
  if descErr d then inr InvalidDescriptor
  else
    let consistent :=
      match dimHashesByName r !! fqName d with
      | Some h => bool_decide (h = dimHash d)
      | None => true
      end in
    if negb consistent then inr InconsistentDescriptor
    else
      match collectorsByID r !! descID d with
      | Some existing => inr (AlreadyRegisteredError existing)
      | None =>
          inl (mkRegistry (<[descID d := c]> (collectorsByID r))
                          (<[fqName d := dimHash d]> (dimHashesByName r)))
      end.

End prometheus.

(** ** Package analytics: the realtime data service *)

Module analytics.

(** A prepared call [rts.Get(ids, metrics)], with the dimensions when
    [Dimensions] was called on it. *)
Record DataRealtimeGetCall : Type := mkGetCall {
  ids : string;
  metrics : string;
  dimensions : option string
}.

(** [RealtimeData]: of the response only [Rows] is read. *)
Record RealtimeData : Type := mkRealtimeData {
  Rows : list (list string)
}.

(** The error of a failed call. *)
Definition error : Type := string.

(** The service as seen from the program: what [Do] answers to a call. *)
Definition DataRealtimeService : Type := DataRealtimeGetCall -> RealtimeData + error.

End analytics.

(** ** Panics *)

(** The run-time failures the program can end in.  None of them is ever
    recovered: a panic in a goroutine terminates the whole process. *)
Inductive panic : Type :=
  | NilDereference                                (* call through a nil pointer or interface *)
  | IndexOutOfRange                               (* slice index past the length *)
  | TypeAssertion                                 (* failed single-value type assertion *)
  | RequestError (e : analytics.error)            (* panic(err) after getc.Do() *)
  | RegistrationError (e : prometheus.RegisterError) (* panic(err) after prometheus.Register *)
  | LabelValueError (e : prometheus.LabelError).  (* panic(err) inside WithLabelValues *)

Inductive result (A : Type) : Type :=
  | Ok (a : A)
  | Panic (p : panic).
Arguments Ok {A} a.
Arguments Panic {A} p.

(** ** The label sanitizer *)

(** The first element of [rows] in [buildMetricLabel]. *)
Definition labelPrefix : string := "rt:".

(** [buildMetricLabel].  The error of [regexp.Compile] is dropped by the
    program; had compilation failed, [reg] would be nil and the call
    through it would panic. *)
Definition buildMetricLabel (action : string) : result string :=
  match regexp.Compile "[^a-zA-Z0-9]+" with
  | Some reg =>
      let rows := [labelPrefix; regexp.ReplaceAllString reg action ""] in
      Ok (strings.Replace (strings.Join rows "_") " " "_" (-1))
  | None => Panic NilDereference
  end.


(** ** Program state and the panic monad *)

(** [conf], the configuration read from the YAML file. *)
Record conf : Type := mkConf {
  Interval : Z;
  Metrics : list string;
  Dimensions : list (gmap string (list string));
  ViewID : string;
  PromPort : string
}.

(** The mutable world of the process: the collector objects by address,
    the default registry, the two package-level maps, and the calls sent
    to the data source so far (latest first). *)
Record State : Type := mkState {
  heap : gmap nat prometheus.Collector;
  registry : prometheus.Registry;
  promGauge : gmap string nat;
  promGaugeVec : gmap string nat;
  requests : list analytics.DataRealtimeGetCall
}.

Definition initial : State :=
  mkState ∅ (prometheus.mkRegistry ∅ ∅) ∅ ∅ [].

(** How a computation ends: it returns, or it panics; either way the
    state reached is kept. *)
Inductive outcome (A : Type) : Type :=
  | Returned (a : A) (st : State)
  | Panicked (p : panic) (st : State).
Arguments Returned {A} a st.
Arguments Panicked {A} p st.

Definition M (A : Type) : Type := State -> outcome A.

Definition ret {A : Type} (a : A) : M A := fun st => Returned a st.

Definition bind {A B : Type} (m : M A) (f : A -> M B) : M B :=
  fun st =>
    match m st with
    | Returned a st' => f a st'
    | Panicked p st' => Panicked p st'
    end.

Definition throw {A : Type} (p : panic) : M A := fun st => Panicked p st.

Definition gets {A : Type} (f : State -> A) : M A := fun st => Returned (f st) st.

Definition modify (f : State -> State) : M unit := fun st => Returned tt (f st).

Notation "x <- m ;; k" := (bind m (fun x => k))
  (at level 100, m at next level, right associativity).
Notation "m ;;; k" := (bind m (fun _ => k))
  (at level 100, right associativity).

(** [l[i]] with Go's bounds check. *)
Definition index {A : Type} (l : list A) (i : nat) : M A :=
  match l !! i with
  | Some x => ret x
  | None => throw IndexOutOfRange
  end.

(** A pure step that may panic. *)
Definition lift {A : Type} (r : result A) : M A :=
  match r with
  | Ok a => ret a
  | Panic p => throw p
  end.

(** [for _, x := range l { body }]. *)
Fixpoint forEach {A : Type} (l : list A) (body : A -> M unit) : M unit :=
  match l with
  | [] => ret tt
  | x :: l' => body x ;;; forEach l' body
  end.

Definition set_heap (h : gmap nat prometheus.Collector) (st : State) : State :=
  mkState h (registry st) (promGauge st) (promGaugeVec st) (requests st).
Definition set_registry (r : prometheus.Registry) (st : State) : State :=
  mkState (heap st) r (promGauge st) (promGaugeVec st) (requests st).
Definition set_promGauge (m : gmap string nat) (st : State) : State :=
  mkState (heap st) (registry st) m (promGaugeVec st) (requests st).
Definition set_promGaugeVec (m : gmap string nat) (st : State) : State :=
  mkState (heap st) (registry st) (promGauge st) m (requests st).
Definition set_requests (l : list analytics.DataRealtimeGetCall) (st : State) : State :=
  mkState (heap st) (registry st) (promGauge st) (promGaugeVec st) l.

(** *** The library calls the program makes *)

(** A new object gets an address not in use. *)
Definition alloc (c : prometheus.Collector) : M nat :=
  fun st =>
    let a := fresh (dom (heap st)) in
    Returned a (set_heap (<[a := c]> (heap st)) st).

(** [prometheus.NewGauge(opts)]. *)
Definition NewGauge (opts : prometheus.GaugeOpts) : M nat :=
  alloc (prometheus.Gauge
           (prometheus.mkDesc (prometheus.Name opts) (prometheus.Help opts)
                              (prometheus.ConstLabels opts) [])
           zero64).

(** [prometheus.NewGaugeVec(opts, labelNames)]. *)
Definition NewGaugeVec (opts : prometheus.GaugeOpts) (labelNames : list string) : M nat :=
  alloc (prometheus.GaugeVec
           (prometheus.mkDesc (prometheus.Name opts) (prometheus.Help opts)
                              (prometheus.ConstLabels opts) labelNames)
           ∅).

(** [prometheus.Register(c)] on the default registry, for [c] a collector
    address or nil; the result is the error, [None] for nil. *)
Definition Register (c : option nat) : M (option prometheus.RegisterError) :=
  fun st =>
    match c with
    | Some a =>
        match heap st !! a with
        | Some obj =>
            match prometheus.register (registry st) a (prometheus.Describe obj) with
            | inl r => Returned None (set_registry r st)
            | inr e => Returned (Some e) st
            end
        | None => Panicked NilDereference st
        end
    | None => Panicked NilDereference st
    end.

(** [g.Set(val)] on a gauge address or nil. *)
Definition Gauge_Set (g : option nat) (val : float64) : M unit :=
  fun st =>
    match g with
    | Some a =>
        match heap st !! a with
        | Some (prometheus.Gauge d _) =>
            Returned tt (set_heap (<[a := prometheus.Gauge d val]> (heap st)) st)
        | _ => Panicked NilDereference st
        end
    | None => Panicked NilDereference st
    end.

(** [v.WithLabelValues(lvs...).Set(val)] on a vector address or nil: the
    label values are checked, the child is created when it is not there
    yet, and its value is set. *)
Definition GaugeVec_WithLabelValues_Set
    (v : option nat) (lvs : list string) (val : float64) : M unit :=
  fun st =>
    match v with
    | Some a =>
        match heap st !! a with
        | Some (prometheus.GaugeVec d children) =>
            if negb (length lvs =? length (prometheus.variableLabels d))%nat then
              Panicked (LabelValueError prometheus.InconsistentCardinality) st
            else if negb (forallb utf8.ValidString lvs) then
              Panicked (LabelValueError prometheus.InvalidUTF8) st
            else
              Returned tt
                (set_heap (<[a := prometheus.GaugeVec d (<[lvs := val]> children)]> (heap st)) st)
        | _ => Panicked NilDereference st
        end
    | None => Panicked NilDereference st
    end.

(** [getc.Do()]: the call goes out, the service answers. *)
Definition Do (rts : analytics.DataRealtimeService) (getc : analytics.DataRealtimeGetCall)
  : M (analytics.RealtimeData + analytics.error) :=
  fun st => Returned (rts getc) (set_requests (getc :: requests st) st).

(** *** The program *)

(** The options both kinds of series are created with. *)
Definition gaugeOpts (metric : string) : prometheus.GaugeOpts :=
  prometheus.mkOpts
    ("ga_" +:+ strings.Replace metric ":" "_" 1)
    ("Google Analytics " +:+ metric)
    {[ "job" := "googleAnalytics" ]}.

(** [registerMetricVec]. *)
Definition registerMetricVec (metric : string) : M unit :=
  v <- NewGaugeVec (gaugeOpts metric) ["category"] ;;
  modify (fun st => set_promGaugeVec (<[metric := v]> (promGaugeVec st)) st) ;;;
  c <- gets (fun st => promGaugeVec st !! metric) ;;
  err <- Register c ;;
  match err with
  | None => ret tt
  | Some (prometheus.AlreadyRegisteredError existing) =>
      obj <- gets (fun st => heap st !! existing) ;;
      match obj with
      | Some (prometheus.GaugeVec _ _) =>
          modify (fun st => set_promGaugeVec (<[metric := existing]> (promGaugeVec st)) st)
      | _ => throw TypeAssertion
      end
  | Some e => throw (RegistrationError e)
  end.
Arguments registerMetricVec : simpl never.

(** The body of the loop in [init]; the error of [Register] is dropped. *)
Definition initMetric (metric : string) : M unit :=
  g <- NewGauge (gaugeOpts metric) ;;
  modify (fun st => set_promGauge (<[metric := g]> (promGauge st)) st) ;;;
  c <- gets (fun st => promGauge st !! metric) ;;
  _ <- Register c ;;
  ret tt.

Section Exporter.

(** The package-level [config], fixed once loaded, and the number parser
    of package strconv, [fun s => strconv.ParseFloat(s, 64)]. *)
Variable config : conf.
Variable ParseFloat : string -> parsed.

(** [init], after the configuration is loaded. *)
Definition init : M unit := forEach (Metrics config) initMetric.

(** [getDimensions]. *)
Definition getDimensions (metric : string) : string :=
  fold_left
    (fun (dimensions : string) (dimensionMap : gmap string (list string)) =>
       strings.Join (default [] (dimensionMap !! metric)) ",")
    (Dimensions config) "".

(** The body of the loop over [m.Rows] in [collectMetric]. *)
Definition collectRow (row : list string) : M unit :=
  category <- index row 0 ;;
  if negb (strings.Contains category "(not set)") then
    action <- index row 1 ;;
    label <- lift (buildMetricLabel action) ;;
    registerMetricVec label ;;;
    cell <- index row 2 ;;
    let valf := value_of (ParseFloat cell) in
    v <- gets (fun st => promGaugeVec st !! label) ;;
    GaugeVec_WithLabelValues_Set v [category] valf
  else ret tt.

(** [collectMetric]. *)
Definition collectMetric (rts : analytics.DataRealtimeService)
    (metric : string) (gaDimensions : string) : M unit :=
  let getc := analytics.mkGetCall (ViewID config) metric None in
  let getc :=
    if (0 <? String.length gaDimensions)%nat
    then analytics.mkGetCall (analytics.ids getc) (analytics.metrics getc) (Some gaDimensions)
    else getc in
  r <- Do rts getc ;;
  match r with
  | inr err => throw (RequestError err)
  | inl m =>
      if (length (analytics.Rows m) =? 1)%nat then
        row <- index (analytics.Rows m) 0 ;;
        cell <- index row 0 ;;
        let valf := value_of (ParseFloat cell) in
        g <- gets (fun st => promGauge st !! metric) ;;
        Gauge_Set g valf
      else
        forEach (analytics.Rows m) collectRow
  end.

(** The goroutine started for each metric in [main]. *)
Definition worker (rts : analytics.DataRealtimeService) (metric : string) : M unit :=
  let dimensions := getDimensions metric in
  collectMetric rts metric dimensions.

End Exporter.


(** ** Observations, shapes and invariants *)

(** The descriptors of the two kinds of series the program creates. *)
Definition scalarDesc (metric : string) : prometheus.Desc :=
  let opts := gaugeOpts metric in
  prometheus.mkDesc (prometheus.Name opts) (prometheus.Help opts)
                    (prometheus.ConstLabels opts) [].

Definition vecDesc (metric : string) : prometheus.Desc :=
  let opts := gaugeOpts metric in
  prometheus.mkDesc (prometheus.Name opts) (prometheus.Help opts)
                    (prometheus.ConstLabels opts) ["category"].

(** The derived series name of a dimension value, in the words of the
    specification: prefix, underscore, letters and digits of the value. *)
Definition derivedName (dimensionValue : string) : string :=
  labelPrefix +:+ "_" +:+ string_filter is_alnum dimensionValue.

(** The strings the sanitizer can return. *)
Definition sanitized (label : string) : Prop :=
  exists action, buildMetricLabel action = Ok label.

(** The value of the scalar gauge of a metric. *)
Definition scalarOf (st : State) (metric : string) : option float64 :=
  match promGauge st !! metric with
  | Some a =>
      match heap st !! a with
      | Some (prometheus.Gauge _ v) => Some v
      | _ => None
      end
  | None => None
  end.

(** The value of the cell (derived name, category) of the vectors. *)
Definition vectorOf (st : State) (label category : string) : option float64 :=
  match promGaugeVec st !! label with
  | Some a =>
      match heap st !! a with
      | Some (prometheus.GaugeVec _ children) => children !! [category]
      | _ => None
      end
  | None => None
  end.

(** The collector exported under a descriptor, if any. *)
Definition exportedAs (st : State) (d : prometheus.Desc) : option nat :=
  prometheus.collectorsByID (registry st) !! prometheus.descID d.

(** The call [collectMetric] sends. *)
Definition requestFor (config : conf) (metric gaDimensions : string)
  : analytics.DataRealtimeGetCall :=
  analytics.mkGetCall (ViewID config) metric
    (if (0 <? String.length gaDimensions)%nat then Some gaDimensions else None).

Definition logRequest (getc : analytics.DataRealtimeGetCall) (st : State) : State :=
  set_requests (getc :: requests st) st.

(** A row the loop of [collectMetric] passes over. *)
Definition skipped (row : list string) : bool :=
  match row with
  | category :: _ => strings.Contains category "(not set)"
  | [] => false
  end.

(** A row of the loop has the cells the loop reads: the first one, and,
    unless the row is passed over, the second and third as well. *)
Definition rowShaped (row : list string) : bool :=
  match row with
  | [] => false
  | _ :: _ => skipped row || (3 <=? length row)%nat
  end.

(** The precondition on the shape of a result: a single row has a first
    cell; otherwise every row is as the loop needs it. *)
Definition wellShaped (rows : list (list string)) : bool :=
  match rows with
  | [row] => (1 <=? length row)%nat
  | _ => forallb rowShaped rows
  end.

(** The category of a row that is not passed over is valid UTF-8, as the
    strings decoded from a JSON response are. *)
Definition rowValid (row : list string) : bool :=
  match row with
  | category :: _ => skipped row || utf8.ValidString category
  | [] => true
  end.

(** The effect of one row on the table of vector cells, in the words of
    the specification: a row [category, dimensionValue, value] is dropped
    when the category contains "(not set)"; otherwise the cell (derived
    name, category) becomes the parsed value. *)
Definition specRow (ParseFloat : string -> parsed)
    (table : string -> string -> option float64) (row : list string)
  : string -> string -> option float64 :=
  match row with
  | category :: dimensionValue :: value :: _ =>
      if strings.Contains category "(not set)" then table
      else fun label c =>
             if bool_decide (label = derivedName dimensionValue /\ c = category)
             then Some (value_of (ParseFloat value))
             else table label c
  | _ => table
  end.

Definition specRows (ParseFloat : string -> parsed) (rows : list (list string))
    (table : string -> string -> option float64)
  : string -> string -> option float64 :=
  fold_left (specRow ParseFloat) rows table.

(** The lookup of the Dimension Resolver in the words of the
    specification: the joined list of the last entry that defines the
    metric, the empty string when none does. *)
Definition dimensionsFor (entries : list (gmap string (list string))) (metricName : string)
  : string :=
  fold_left
    (fun (found : string) (entry : gmap string (list string)) =>
       match entry !! metricName with
       | Some dims => strings.Join dims ","
       | None => found
       end)
    entries "".

(** Names of the form the vectors get: [ga_rt__] and letters and digits. *)
Fixpoint strip_prefix (p s : string) : option string :=
  match p with
  | EmptyString => Some s
  | String c p' =>
      match s with
      | String d s' => if Ascii.eqb c d then strip_prefix p' s' else None
      | EmptyString => None
      end
  end.

Definition isVecName (n : string) : bool :=
  match strip_prefix "ga_rt__" n with
  | Some x => string_forallb is_alnum x
  | None => false
  end.

(** No configured metric gets a scalar series under a name of that form. *)
Definition noClash (config : conf) : bool :=
  forallb (fun m => negb (isVecName (prometheus.fqName (scalarDesc m)))) (Metrics config).

(** What holds of the state once [init] has run under such a
    configuration, and from then on. *)
Record wf (config : conf) (st : State) : Prop := mkWf {
  wf_heap : forall a c, heap st !! a = Some c ->
    (exists m v, c = prometheus.Gauge (scalarDesc m) v
                 /\ isVecName (prometheus.fqName (scalarDesc m)) = false)
    \/ (exists L ch, sanitized L /\ c = prometheus.GaugeVec (vecDesc L) ch);
  wf_reg : forall id a, prometheus.collectorsByID (registry st) !! id = Some a ->
    exists c, heap st !! a = Some c
              /\ id = prometheus.descID (prometheus.Describe c)
              /\ prometheus.dimHashesByName (registry st)
                   !! prometheus.fqName (prometheus.Describe c)
                 = Some (prometheus.dimHash (prometheus.Describe c));
  wf_dim : forall n h, prometheus.dimHashesByName (registry st) !! n = Some h ->
    exists a c, heap st !! a = Some c
                /\ n = prometheus.fqName (prometheus.Describe c)
                /\ h = prometheus.dimHash (prometheus.Describe c);
  wf_vec : forall L a, promGaugeVec st !! L = Some a ->
    sanitized L /\ exportedAs st (vecDesc L) = Some a
    /\ exists ch, heap st !! a = Some (prometheus.GaugeVec (vecDesc L) ch);
  wf_vec_reg : forall L a, sanitized L -> exportedAs st (vecDesc L) = Some a ->
    promGaugeVec st !! L = Some a;
  wf_gauge : forall m a, promGauge st !! m = Some a ->
    exists v, heap st !! a = Some (prometheus.Gauge (scalarDesc m) v);
  wf_metrics : forall m, m ∈ Metrics config -> is_Some (promGauge st !! m)
}.

(** The address the next new object gets. *)
Definition newAddr (st : State) : nat := fresh (dom (heap st)).

(** The state once [initMetric] has created its gauge and stored it in
    [promGauge], before it registers it. *)
Definition withNewGauge (metric : string) (st : State) : State :=
  set_promGauge (<[metric := newAddr st]> (promGauge st))
    (set_heap (<[newAddr st := prometheus.Gauge (scalarDesc metric) zero64]> (heap st)) st).

(** The state once [registerMetricVec] has created its vector and stored
    it in [promGaugeVec], before it registers it. *)
Definition withNewVec (metric : string) (st : State) : State :=
  set_promGaugeVec (<[metric := newAddr st]> (promGaugeVec st))
    (set_heap (<[newAddr st := prometheus.GaugeVec (vecDesc metric) ∅]> (heap st)) st).

(** What [Register] answers to that vector. *)
Definition registerVecAnswer (metric : string) (st : State)
  : prometheus.Registry + prometheus.RegisterError :=
  prometheus.register (registry st) (newAddr st) (vecDesc metric).

(** The state an outcome ends in. *)
Definition stateOf {A : Type} (o : outcome A) : State :=
  match o with
  | Returned _ st => st
  | Panicked _ st => st
  end.

(** [avoids P o]: the outcome [o] is not a panic of the kind [P]. *)
Definition avoids {A : Type} (P : panic -> Prop) (o : outcome A) : Prop :=
  match o with
  | Returned _ _ => True
  | Panicked p _ => ~ P p
  end.

(** The body of [collectMetric] once the response is there. *)
Definition interpret (ParseFloat : string -> parsed)
    (metric : string) (m : analytics.RealtimeData) : M unit :=
  if (length (analytics.Rows m) =? 1)%nat then
    row <- index (analytics.Rows m) 0 ;;
    cell <- index row 0 ;;
    let valf := value_of (ParseFloat cell) in
    g <- gets (fun st => promGauge st !! metric) ;;
    Gauge_Set g valf
  else
    forEach (analytics.Rows m) (collectRow ParseFloat).

(** The states of a run: the one [init] leaves, and those left by the
    workers that return, one after the other. *)
Inductive reachable (config : conf) (ParseFloat : string -> parsed) : State -> Prop :=
  | reach_init (st : State) :
      init config initial = Returned tt st -> reachable config ParseFloat st
  | reach_worker (st st' : State) (rts : analytics.DataRealtimeService) (metric : string) :
      reachable config ParseFloat st ->
      worker config ParseFloat rts metric st = Returned tt st' ->
      reachable config ParseFloat st'.

(** ** Example data *)

(** The state of the process once [init] has run. *)
Definition startState (config : conf) : State := stateOf (init config initial).

(** A data source that answers every call with the given rows, and one
    that fails every call. *)
Definition serve (rows : list (list string)) : analytics.DataRealtimeService :=
  fun _ => inl (analytics.mkRealtimeData rows).

Definition refuse (err : analytics.error) : analytics.DataRealtimeService :=
  fun _ => inr err.

(** The float [m * 2^e]. *)
Definition dyadic (m e : Z) : float64 := binary_normalize prec64 emax64 m e false.

Definition exampleConfig : conf :=
  mkConf 60 ["rt:activeUsers"; "rt:pageviews"]
         [{[ "rt:pageviews" := ["rt:country"; "rt:deviceCategory"] ]}]
         "ga:1" "9100".

(** Two metrics with one dimension entry each. *)
Definition twoEntries : conf :=
  mkConf 60 ["rt:pageviews"; "rt:activeUsers"]
         [{[ "rt:pageviews" := ["rt:pagePath"] ]}; {[ "rt:activeUsers" := ["rt:country"] ]}]
         "ga:1" "9100".

(** A metric whose scalar series takes the name of a vector. *)
Definition clashConfig : conf := mkConf 60 ["rt:_mobile"] [] "ga:1" "9100".

Definition exampleRows : list (list string) :=
  [["(not set)"; "x"; "1"]; ["US"; "mobile"; "7"]].

(** ** What a step leaves in place *)

(** [persists st st']: from [st] to [st'] no registration is withdrawn or
    moved to another object, no object disappears or changes its
    descriptor or its kind, and [promGauge] and the log of calls are the
    same. *)
Definition persists (st st' : State) : Prop :=
  prometheus.collectorsByID (registry st) ⊆ prometheus.collectorsByID (registry st')
  /\ prometheus.dimHashesByName (registry st) ⊆ prometheus.dimHashesByName (registry st')
  /\ promGauge st' = promGauge st
  /\ requests st' = requests st
  /\ (forall a c, heap st !! a = Some c ->
        exists c', heap st' !! a = Some c'
                   /\ prometheus.Describe c' = prometheus.Describe c
                   /\ prometheus.isGaugeVec c' = prometheus.isGaugeVec c).

(** [keeps m]: the computation [m] goes from any state to one that
    [persists] it, whether it returns or panics. *)
Definition keeps {A : Type} (m : M A) : Prop :=
  forall st, persists st (stateOf (m st)).

(** The value a scrape reads for the scalar series of a metric: that of
    the collector exported under its descriptor. *)
Definition exportedScalar (st : State) (metric : string) : option float64 :=
  match exportedAs st (scalarDesc metric) with
  | Some a =>
      match heap st !! a with
      | Some (prometheus.Gauge _ v) => Some v
      | _ => None
      end
  | None => None
  end.

(** The row addresses the cell ([label], [c]) of the vectors. *)
Definition addresses (label c : string) (row : list string) : bool :=
  match row with
  | category :: dimensionValue :: _ :: _ =>
      negb (strings.Contains category "(not set)")
      && bool_decide (derivedName dimensionValue = label)
      && bool_decide (category = c)
  | _ => false
  end.

(** The panics a worker can end in under a configuration without name
    clash. *)
Definition workerPanic (p : panic) : Prop :=
  (exists err, p = RequestError err)
  \/ p = IndexOutOfRange
  \/ p = LabelValueError prometheus.InvalidUTF8.

(** [persists] but for the log of calls. *)
Definition endures (st st' : State) : Prop :=
  prometheus.collectorsByID (registry st) ⊆ prometheus.collectorsByID (registry st')
  /\ prometheus.dimHashesByName (registry st) ⊆ prometheus.dimHashesByName (registry st')
  /\ promGauge st' = promGauge st
  /\ (forall a c, heap st !! a = Some c ->
        exists c', heap st' !! a = Some c'
                   /\ prometheus.Describe c' = prometheus.Describe c
                   /\ prometheus.isGaugeVec c' = prometheus.isGaugeVec c).

(** The name of the scalar series of a metric. *)
Definition scalarName (metric : string) : string := prometheus.fqName (scalarDesc metric).

(** The gauges bound in [promGauge] are fresh ones. *)
Definition gaugesBound (st : State) : Prop :=
  forall m a, promGauge st !! m = Some a ->
              heap st !! a = Some (prometheus.Gauge (scalarDesc m) zero64).

(** What the loop of [init] has set up once it has gone through the
    metrics [done], when their names are valid and differ: each is bound
    to the gauge exported under its descriptor, and nothing else is
    registered. *)
Definition exportsAll (st : State) (done : list string) : Prop :=
  (forall m, m ∈ done ->
     exists a, promGauge st !! m = Some a
               /\ exportedAs st (scalarDesc m) = Some a
               /\ heap st !! a = Some (prometheus.Gauge (scalarDesc m) zero64))
  /\ (forall n, is_Some (prometheus.dimHashesByName (registry st) !! n) ->
                n ∈ scalarName <$> done)
  /\ (forall id, is_Some (prometheus.collectorsByID (registry st) !! id) ->
                 id.1 ∈ scalarName <$> done).

(** The registry holds dimension hashes of scalar descriptors only, and
    one for every name it has a collector under. *)
Definition scalarsOnly (st : State) : Prop :=
  (forall n h, prometheus.dimHashesByName (registry st) !! n = Some h ->
     exists m, h = prometheus.dimHash (scalarDesc m))
  /\ (forall id, is_Some (prometheus.collectorsByID (registry st) !! id) ->
        is_Some (prometheus.dimHashesByName (registry st) !! id.1)).

(** The names of the metrics [done] whose descriptors are valid are
    taken. *)
Definition namesTaken (st : State) (done : list string) : Prop :=
  forall m, m ∈ done -> prometheus.descErr (scalarDesc m) = false ->
            is_Some (prometheus.dimHashesByName (registry st) !! scalarName m).

(** Two rows for one cell, under dimension values that differ in a
    space only. *)
Definition meetingRows : list (list string) :=
  [["US"; "mobile"; "1"]; ["US"; "mo bile"; "2"]].

(** A result whose second row is empty. *)
Definition brokenRows : list (list string) := [["US"; "mobile"; "7"]; []].

(** * Properties *)

(** ** Strings *)

Lemma occurs_app (c : ascii) (s t : string) :
  occurs c (s +:+ t) <-> occurs c s \/ occurs c t.
Proof.
  induction s as [|d s IH]; simpl; [tauto|]. rewrite IH. tauto.
Qed.

Lemma occurs_filter (p : ascii -> bool) (c : ascii) (s : string) :
  occurs c (string_filter p s) -> p c = true.
Proof.
  induction s as [|d s IH]; simpl; [tauto|].
  destruct (p d) eqn:Hd; simpl; [|exact IH].
  intros [->|H]; auto.
Qed.

Lemma forallb_filter (p : ascii -> bool) (s : string) :
  string_forallb p (string_filter p s) = true.
Proof.
  induction s as [|d s IH]; simpl; [reflexivity|].
  destruct (p d) eqn:Hd; simpl; [rewrite Hd|]; exact IH.
Qed.

Lemma filter_id (p : ascii -> bool) (s : string) :
  string_forallb p s = true -> string_filter p s = s.
Proof.
  induction s as [|d s IH]; simpl; [reflexivity|].
  intros [Hd Hs]%andb_true_iff. rewrite Hd, IH; auto.
Qed.

Lemma forallb_occurs (p : ascii -> bool) (s : string) (c : ascii) :
  string_forallb p s = true -> occurs c s -> p c = true.
Proof.
  induction s as [|d s IH]; simpl; [tauto|].
  intros [Hd Hs]%andb_true_iff [->|H]; auto.
Qed.

Lemma HasPrefix_byte (c d : ascii) (s : string) :
  strings.HasPrefix (String c s) (String d EmptyString) = Ascii.eqb c d.
Proof. simpl. destruct (Ascii.eqb c d); reflexivity. Qed.

(** Replacing a byte that does not occur changes nothing. *)
Lemma Replace_absent (s : string) (old : ascii) (new : string) (n : Z) :
  ~ occurs old s -> strings.Replace s (String old EmptyString) new n = s.
Proof.
  unfold strings.Replace. induction s as [|c s IH]; [reflexivity|].
  intros H. cbn [strings.replace_from]. rewrite HasPrefix_byte.
  destruct (Ascii.eqb_spec c old) as [->|Hne].
  - exfalso. apply H. simpl. auto.
  - rewrite andb_false_r. f_equal. apply IH. intros Ho. apply H. simpl. auto.
Qed.

(** With a limit of one, only the first occurrence of the byte goes. *)
Lemma Replace_first (p q : string) (old : ascii) (new : string) :
  ~ occurs old p ->
  strings.Replace (p +:+ String old q) (String old EmptyString) new 1 = p +:+ new +:+ q.
Proof.
  unfold strings.Replace. induction p as [|c p IH]; intros H.
  - change (strings.replace_from 0 (String old q) (String old EmptyString) new 1
            = new +:+ q).
    cbn [strings.replace_from]. rewrite HasPrefix_byte, Ascii.eqb_refl.
    cbn [negb andb Z.eqb String.length Nat.sub]. f_equal.
    clear. induction q as [|c q IH]; [reflexivity|].
    cbn [strings.replace_from]. simpl. f_equal. exact IH.
  - change (strings.replace_from 0 (String c (p +:+ String old q)) (String old EmptyString) new 1
            = String c (p +:+ new +:+ q)).
    cbn [strings.replace_from]. rewrite HasPrefix_byte.
    destruct (Ascii.eqb_spec c old) as [->|Hne].
    + exfalso. apply H. simpl. auto.
    + rewrite andb_false_r. f_equal. apply IH. intros Ho. apply H. simpl. auto.
Qed.

(** ** The sanitizer *)

Lemma Compile_pattern :
  regexp.Compile "[^a-zA-Z0-9]+" =
  Some (regexp.mkRegexp true [("a", "z"); ("A", "Z"); ("0", "9")]%char).
Proof. reflexivity. Qed.

Lemma in_class_pattern (c : ascii) :
  regexp.in_class (regexp.mkRegexp true [("a", "z"); ("A", "Z"); ("0", "9")]%char) c
  = negb (is_alnum c).
Proof.
  unfold regexp.in_class, is_alnum. simpl. rewrite orb_false_r, orb_assoc. reflexivity.
Qed.

(** Replacing the matches by the empty string keeps exactly the bytes
    outside the class, in order. *)
Lemma replace_runs_empty (re : regexp.Regexp) (inside : bool) (src : string) :
  regexp.replace_runs re inside src "" =
  string_filter (fun c => negb (regexp.in_class re c)) src.
Proof.
  revert inside. induction src as [|c src IH]; intros inside; simpl; [reflexivity|].
  destruct (regexp.in_class re c); simpl.
  - destruct inside; apply IH.
  - f_equal. apply IH.
Qed.

Lemma string_filter_ext (p q : ascii -> bool) (s : string) :
  (forall c, p c = q c) -> string_filter p s = string_filter q s.
Proof.
  intros H. induction s as [|c s IH]; simpl; [reflexivity|]. rewrite H, IH. reflexivity.
Qed.

Lemma space_not_alnum : is_alnum " " = false.
Proof. reflexivity. Qed.

Lemma sanitized_no_space (x : string) :
  string_forallb is_alnum x = true -> ~ occurs " "%char (labelPrefix +:+ "_" +:+ x).
Proof.
  intros Hx. rewrite !occurs_app. intros [H|[H|H]].
  - simpl in H. intuition discriminate.
  - simpl in H. intuition discriminate.
  - apply (forallb_occurs _ _ _ Hx) in H. rewrite space_not_alnum in H. discriminate.
Qed.

Lemma buildMetricLabel_eq (action : string) :
  buildMetricLabel action = Ok (labelPrefix +:+ "_" +:+ string_filter is_alnum action).
Proof.
  unfold buildMetricLabel. rewrite Compile_pattern.
  unfold regexp.ReplaceAllString. rewrite replace_runs_empty.
  rewrite (string_filter_ext _ is_alnum)
    by (intros c; rewrite in_class_pattern; apply negb_involutive).
  cbn [strings.Join]. f_equal.
  apply Replace_absent, sanitized_no_space, forallb_filter.
Qed.

(** C4.  For every raw string the sanitizer returns the prefix, an
    underscore and the ASCII letters and digits of the input in their
    order; no space occurs in what it returns. *)
Theorem buildMetricLabel_shape (raw : string) :
  buildMetricLabel raw = Ok (labelPrefix +:+ "_" +:+ string_filter is_alnum raw)
  /\ ~ occurs " "%char (labelPrefix +:+ "_" +:+ string_filter is_alnum raw).
Proof.
  split; [apply buildMetricLabel_eq|]. apply sanitized_no_space, forallb_filter.
Qed.

(** C9, as stated, fails: on the empty string the sanitizer does not
    return the bare prefix. *)
Lemma buildMetricLabel_empty_not_prefix :
  buildMetricLabel "" <> Ok labelPrefix.
Proof. rewrite buildMetricLabel_eq. discriminate. Qed.

(** C9, amended.  The sanitizer depends on its argument alone and returns
    a string for every input, never a panic; on the empty string it
    returns the prefix followed by the joining underscore. *)
Theorem buildMetricLabel_total :
  (forall raw, exists out, buildMetricLabel raw = Ok out)
  /\ buildMetricLabel "" = Ok (labelPrefix +:+ "_").
Proof.
  split; [|apply buildMetricLabel_eq].
  intros raw. eexists. apply buildMetricLabel_eq.
Qed.

(** ** Names and descriptors *)

Lemma sanitized_derived (action : string) : sanitized (derivedName action).
Proof. exists action. apply buildMetricLabel_eq. Qed.

Lemma sanitized_inv (L : string) :
  sanitized L ->
  exists x, string_forallb is_alnum x = true /\ L = labelPrefix +:+ "_" +:+ x.
Proof.
  intros [action H]. rewrite buildMetricLabel_eq in H. injection H as <-.
  eexists. split; [apply forallb_filter|reflexivity].
Qed.

Lemma vecName_sanitized (x : string) :
  prometheus.fqName (vecDesc (labelPrefix +:+ "_" +:+ x)) = "ga_rt__" +:+ x.
Proof.
  unfold vecDesc, gaugeOpts. cbn [prometheus.fqName prometheus.Name].
  change (labelPrefix +:+ "_" +:+ x) with ("rt" +:+ String ":" ("_" +:+ x)).
  rewrite Replace_first; [reflexivity|].
  simpl. intuition discriminate.
Qed.

Lemma strip_prefix_app (p s : string) : strip_prefix p (p +:+ s) = Some s.
Proof.
  induction p as [|c p IH]; simpl; [reflexivity|]. rewrite Ascii.eqb_refl. exact IH.
Qed.

Lemma isVecName_sanitized (L : string) :
  sanitized L -> isVecName (prometheus.fqName (vecDesc L)) = true.
Proof.
  intros (x & Hx & ->)%sanitized_inv. rewrite vecName_sanitized.
  unfold isVecName. rewrite strip_prefix_app. exact Hx.
Qed.

Lemma append_inj_l (p s t : string) : p +:+ s = p +:+ t -> s = t.
Proof.
  induction p as [|c p IH]; simpl; [auto|]. intros H. injection H as H. auto.
Qed.

Lemma vecDesc_help_inj (L L' : string) :
  prometheus.help (vecDesc L) = prometheus.help (vecDesc L') -> L = L'.
Proof. unfold vecDesc, gaugeOpts. simpl. intros H. injection H as H. exact H. Qed.

Lemma vecName_inj (L L' : string) :
  sanitized L -> sanitized L' ->
  prometheus.fqName (vecDesc L) = prometheus.fqName (vecDesc L') -> L = L'.
Proof.
  intros (x & _ & ->)%sanitized_inv (y & _ & ->)%sanitized_inv.
  rewrite !vecName_sanitized. intros H%append_inj_l. congruence.
Qed.

Lemma ascii_valid (s : string) :
  string_forallb (utf8.between 0 127) s = true -> utf8.ValidString s = true.
Proof.
  induction s as [|c s IH]; [reflexivity|].
  cbn [string_forallb utf8.ValidString]. intros [Hc Hs]%andb_true_iff.
  rewrite Hc. auto.
Qed.

Lemma string_forallb_app (p : ascii -> bool) (s t : string) :
  string_forallb p (s +:+ t) = string_forallb p s && string_forallb p t.
Proof.
  induction s as [|c s IH]; simpl; [reflexivity|]. rewrite IH, andb_assoc. reflexivity.
Qed.

Lemma string_forallb_impl (p q : ascii -> bool) (s : string) :
  (forall c, p c = true -> q c = true) ->
  string_forallb p s = true -> string_forallb q s = true.
Proof.
  intros Hpq. induction s as [|c s IH]; simpl; [auto|].
  intros [Hc Hs]%andb_true_iff. rewrite (Hpq _ Hc). auto.
Qed.

Lemma in_range_bounds (lo hi c : ascii) :
  in_range lo hi c = true ->
  (N_of_ascii lo <= N_of_ascii c <= N_of_ascii hi)%N.
Proof. unfold in_range, byte_le. intros [?%N.leb_le ?%N.leb_le]%andb_true_iff. lia. Qed.

Lemma alnum_ascii (c : ascii) : is_alnum c = true -> utf8.between 0 127 c = true.
Proof.
  unfold is_alnum, utf8.between.
  intros [[H|H]%orb_true_iff|H]%orb_true_iff; apply in_range_bounds in H;
    simpl in H; apply andb_true_iff; split; apply N.leb_le; lia.
Qed.

Lemma alnum_name_byte (c : ascii) : is_alnum c = true -> prometheus.name_byte c = true.
Proof. unfold prometheus.name_byte. intros ->. reflexivity. Qed.

Lemma constNames_vecDesc (L : string) : prometheus.constNames (vecDesc L) = ["job"].
Proof. unfold prometheus.constNames, vecDesc, gaugeOpts. simpl. rewrite map_to_list_singleton. reflexivity. Qed.

Lemma constValues_vecDesc (L : string) :
  prometheus.constValues (vecDesc L) = ["googleAnalytics"].
Proof. unfold prometheus.constValues, vecDesc, gaugeOpts. simpl. rewrite map_to_list_singleton. reflexivity. Qed.

(** The descriptor of a vector under a sanitized name is always valid. *)
Lemma descErr_vecDesc (L : string) : sanitized L -> prometheus.descErr (vecDesc L) = false.
Proof.
  intros (x & Hx & ->)%sanitized_inv. unfold prometheus.descErr.
  rewrite constNames_vecDesc, constValues_vecDesc, vecName_sanitized.
  assert (Hn : prometheus.IsValidMetricName ("ga_rt__" +:+ x) = true).
  { change (negb (is_digit "g")
            && string_forallb prometheus.name_byte ("ga_rt__" +:+ x) = true).
    rewrite string_forallb_app.
    rewrite (string_forallb_impl _ _ _ alnum_name_byte Hx). reflexivity. }
  assert (Hu : utf8.ValidString ("ga_rt__" +:+ x) = true).
  { apply ascii_valid. rewrite string_forallb_app.
    rewrite (string_forallb_impl _ _ _ alnum_ascii Hx). reflexivity. }
  rewrite Hn. cbn [forallb]. rewrite Hu. reflexivity.
Qed.

(** ** Registration of a vector *)

Lemma newAddr_fresh (st : State) : heap st !! newAddr st = None.
Proof. apply not_elem_of_dom. unfold newAddr. apply is_fresh. Qed.

Lemma lookup_old_ne (st : State) (a : nat) (c : prometheus.Collector) :
  heap st !! a = Some c -> newAddr st <> a.
Proof. intros H E. rewrite <- E, newAddr_fresh in H. discriminate. Qed.

(** [registerMetricVec] by the answer of [Register]. *)
Lemma registerMetricVec_unfold (metric : string) (st : State) :
  registerMetricVec metric st =
  match registerVecAnswer metric st with
  | inl r => Returned tt (set_registry r (withNewVec metric st))
  | inr (prometheus.AlreadyRegisteredError existing) =>
      match heap (withNewVec metric st) !! existing with
      | Some (prometheus.GaugeVec _ _) =>
          Returned tt (set_promGaugeVec (<[metric := existing]> (promGaugeVec st)) (withNewVec metric st))
      | _ => Panicked TypeAssertion (withNewVec metric st)
      end
  | inr e => Panicked (RegistrationError e) (withNewVec metric st)
  end.
Proof.
  unfold registerMetricVec, bind, NewGaugeVec, alloc, modify, gets, Register.
  cbn [promGaugeVec set_heap set_promGaugeVec heap registry].
  rewrite !lookup_insert_eq. cbn [prometheus.Describe].
  fold (newAddr st). fold (vecDesc metric).
  unfold registerVecAnswer.
  destruct (prometheus.register (registry st) (newAddr st) (vecDesc metric))
    as [r|[existing| |]]; try reflexivity.
  unfold withNewVec. cbn [heap set_heap set_promGaugeVec promGaugeVec registry requests promGauge].
  destruct (<[newAddr st:=prometheus.GaugeVec (vecDesc metric) ∅]> (heap st) !! existing)
    as [[d v|d ch]|]; try reflexivity.
  unfold ret, set_promGaugeVec; cbn. rewrite insert_insert_eq. reflexivity.
Qed.

Lemma register_inl (r r' : prometheus.Registry) (c : nat) (d : prometheus.Desc) :
  prometheus.register r c d = inl r' ->
  prometheus.descErr d = false
  /\ prometheus.collectorsByID r !! prometheus.descID d = None
  /\ r' = prometheus.mkRegistry
            (<[prometheus.descID d := c]> (prometheus.collectorsByID r))
            (<[prometheus.fqName d := prometheus.dimHash d]> (prometheus.dimHashesByName r))
  /\ (forall h, prometheus.dimHashesByName r !! prometheus.fqName d = Some h ->
                h = prometheus.dimHash d).
Proof.
  unfold prometheus.register. destruct (prometheus.descErr d); [discriminate|].
  destruct (prometheus.dimHashesByName r !! prometheus.fqName d) as [h|] eqn:Hh.
  - destruct (bool_decide_reflect (h = prometheus.dimHash d)) as [->|]; [|discriminate].
    cbn [negb]. destruct (prometheus.collectorsByID r !! prometheus.descID d); [discriminate|].
    intros [= <-]. repeat split. congruence.
  - cbn [negb]. destruct (prometheus.collectorsByID r !! prometheus.descID d); [discriminate|].
    intros [= <-]. repeat split. discriminate.
Qed.

Lemma register_already (r : prometheus.Registry) (c existing : nat) (d : prometheus.Desc) :
  prometheus.register r c d = inr (prometheus.AlreadyRegisteredError existing) <->
  prometheus.descErr d = false
  /\ (forall h, prometheus.dimHashesByName r !! prometheus.fqName d = Some h ->
                h = prometheus.dimHash d)
  /\ prometheus.collectorsByID r !! prometheus.descID d = Some existing.
Proof.
  unfold prometheus.register. split.
  - destruct (prometheus.descErr d); [discriminate|].
    destruct (prometheus.dimHashesByName r !! prometheus.fqName d) as [h|] eqn:Hh.
    + destruct (bool_decide_reflect (h = prometheus.dimHash d)) as [->|]; [|discriminate].
      cbn [negb]. destruct (prometheus.collectorsByID r !! prometheus.descID d); [|discriminate].
      intros [= <-]. repeat split. congruence.
    + cbn [negb]. destruct (prometheus.collectorsByID r !! prometheus.descID d); [|discriminate].
      intros [= <-]. repeat split. discriminate.
  - intros (-> & Hh & ->).
    destruct (prometheus.dimHashesByName r !! prometheus.fqName d) as [h|] eqn:E; [|reflexivity].
    rewrite (Hh h eq_refl), bool_decide_eq_true_2; reflexivity.
Qed.

(** The answer "already registered" does not depend on the address of
    the collector offered. *)
Lemma register_already_any (r : prometheus.Registry) (c c' existing : nat) (d : prometheus.Desc) :
  prometheus.register r c d = inr (prometheus.AlreadyRegisteredError existing) ->
  prometheus.register r c' d = inr (prometheus.AlreadyRegisteredError existing).
Proof. rewrite !register_already. auto. Qed.

(** C5.  A call of [registerMetricVec] that returns leaves the name bound
    to the one vector exported under its descriptor; a second call then
    returns as well, with the name bound to that same vector and the
    registry as it was, the vector it created staying unregistered.  When
    [Register] fails otherwise than by "already registered" the call
    panics with that error. *)
Theorem registerMetricVec_idempotent (metric : string) (st : State) :
  (forall st1, registerMetricVec metric st = Returned tt st1 ->
     exists a st2,
       promGaugeVec st1 !! metric = Some a
       /\ exportedAs st1 (vecDesc metric) = Some a
       /\ registerMetricVec metric st1 = Returned tt st2
       /\ promGaugeVec st2 !! metric = Some a
       /\ registry st2 = registry st1
       /\ newAddr st1 <> a)
  /\ (forall e, registerVecAnswer metric st = inr e ->
        (forall existing, e <> prometheus.AlreadyRegisteredError existing) ->
        registerMetricVec metric st = Panicked (RegistrationError e) (withNewVec metric st)).
Proof.
  split.
  - intros st1. rewrite registerMetricVec_unfold.
    destruct (registerVecAnswer metric st) as [r|[existing| |]] eqn:Hans; try discriminate.
    + intros [= <-]. unfold registerVecAnswer in Hans.
      apply register_inl in Hans as (Hdesc & Hnone & -> & Hdim).
      set (st1 := set_registry _ _).
      assert (Hobj : heap st1 !! newAddr st
                     = Some (prometheus.GaugeVec (vecDesc metric) ∅))
        by apply lookup_insert_eq.
      assert (Hsecond : registerVecAnswer metric st1
                        = inr (prometheus.AlreadyRegisteredError (newAddr st))).
      { apply register_already. split; [exact Hdesc|]. split.
        - intros h. subst st1. cbn. rewrite lookup_insert_eq. congruence.
        - subst st1. cbn. apply lookup_insert_eq. }
      exists (newAddr st). eexists. split; [apply lookup_insert_eq|].
      split; [apply lookup_insert_eq|].
      rewrite registerMetricVec_unfold, Hsecond.
      assert (Hne := lookup_old_ne _ _ _ Hobj).
      unfold withNewVec at 1. cbn [heap set_heap set_promGaugeVec].
      rewrite lookup_insert_ne by exact Hne. rewrite Hobj.
      split; [reflexivity|]. split; [apply lookup_insert_eq|]. split; [reflexivity|exact Hne].
    + destruct (heap (withNewVec metric st) !! existing) as [[d v|d ch]|] eqn:Hobj;
        try discriminate.
      intros [= <-]. set (st1 := set_promGaugeVec _ _).
      assert (Hobj1 : heap st1 !! existing = Some (prometheus.GaugeVec d ch)) by exact Hobj.
      assert (Hsecond : registerVecAnswer metric st1
                        = inr (prometheus.AlreadyRegisteredError existing))
        by exact (register_already_any _ _ _ _ _ Hans).
      exists existing. eexists. split; [apply lookup_insert_eq|].
      split; [apply register_already in Hans; apply Hans|].
      rewrite registerMetricVec_unfold, Hsecond.
      assert (Hne := lookup_old_ne _ _ _ Hobj1).
      unfold withNewVec at 1. cbn [heap set_heap set_promGaugeVec].
      rewrite lookup_insert_ne by exact Hne. rewrite Hobj1.
      split; [reflexivity|]. split; [apply lookup_insert_eq|]. split; [reflexivity|exact Hne].
  - intros e He Hne. rewrite registerMetricVec_unfold, He.
    destruct e as [existing| |]; [|reflexivity|reflexivity].
    exfalso. exact (Hne existing eq_refl).
Qed.

Lemma register_new (r : prometheus.Registry) (c : nat) (d : prometheus.Desc) :
  prometheus.descErr d = false ->
  (forall h, prometheus.dimHashesByName r !! prometheus.fqName d = Some h ->
             h = prometheus.dimHash d) ->
  prometheus.collectorsByID r !! prometheus.descID d = None ->
  prometheus.register r c d =
  inl (prometheus.mkRegistry
         (<[prometheus.descID d := c]> (prometheus.collectorsByID r))
         (<[prometheus.fqName d := prometheus.dimHash d]> (prometheus.dimHashesByName r))).
Proof.
  intros Hd Hh Hn. unfold prometheus.register. rewrite Hd, Hn.
  destruct (prometheus.dimHashesByName r !! prometheus.fqName d) as [h|] eqn:E; [|reflexivity].
  rewrite (Hh h eq_refl), bool_decide_eq_true_2; reflexivity.
Qed.

Lemma descID_vec_inj (L L' : string) :
  sanitized L -> sanitized L' ->
  prometheus.descID (vecDesc L) = prometheus.descID (vecDesc L') -> L = L'.
Proof.
  intros HL HL' H. apply vecName_inj; auto.
  unfold prometheus.descID in H. congruence.
Qed.

Section Invariant.

Variable config : conf.

(** In a well-formed state the dimension hash recorded under the name of
    a vector, if any, is that of the vector. *)
Lemma wf_consistent (st : State) (L : string) :
  wf config st -> sanitized L ->
  forall h, prometheus.dimHashesByName (registry st) !! prometheus.fqName (vecDesc L) = Some h ->
            h = prometheus.dimHash (vecDesc L).
Proof.
  intros Hwf HL h Hh.
  destruct (wf_dim _ _ Hwf _ _ Hh) as (a & c & Hc & Hn & ->).
  destruct (wf_heap _ _ Hwf _ _ Hc) as [(m & v & -> & Hm)|(L' & ch & HL' & ->)].
  - cbn [prometheus.Describe] in Hn. rewrite <- Hn, isVecName_sanitized in Hm by exact HL.
    discriminate.
  - cbn [prometheus.Describe] in *. rewrite (vecName_inj _ _ HL HL' Hn). reflexivity.
Qed.

(** Creating one more vector object keeps the state well formed. *)
Lemma wf_registerMetricVec (st : State) (L : string) :
  wf config st -> sanitized L ->
  exists a st',
    registerMetricVec L st = Returned tt st'
    /\ wf config st'
    /\ promGaugeVec st' = <[L := a]> (promGaugeVec st)
    /\ heap st' = <[newAddr st := prometheus.GaugeVec (vecDesc L) ∅]> (heap st)
    /\ promGauge st' = promGauge st
    /\ requests st' = requests st
    /\ (promGaugeVec st !! L = Some a
        \/ promGaugeVec st !! L = None /\ a = newAddr st).
Proof.
  intros Hwf HL. rewrite registerMetricVec_unfold. unfold registerVecAnswer.
  pose proof (wf_consistent _ _ Hwf HL) as Hcons.
  pose proof (descErr_vecDesc _ HL) as Hdesc.
  destruct (exportedAs st (vecDesc L)) as [a|] eqn:Hexp.
  - (* already registered *)
    rewrite (proj2 (register_already _ _ a _)) by (repeat split; assumption).
    pose proof (wf_vec_reg _ _ Hwf _ _ HL Hexp) as Hpg.
    destruct (wf_vec _ _ Hwf _ _ Hpg) as (_ & _ & ch & Hobj).
    assert (Hne := lookup_old_ne _ _ _ Hobj).
    unfold withNewVec at 1. cbn [heap set_heap set_promGaugeVec].
    rewrite lookup_insert_ne by exact Hne. rewrite Hobj.
    exists a. eexists. split; [reflexivity|].
    split; [|cbn; repeat split; auto].
    constructor; cbn.
    + intros a0 c0. destruct (decide (newAddr st = a0)) as [<-|Hn].
      * rewrite lookup_insert_eq. intros [= <-]. right. eauto.
      * rewrite lookup_insert_ne by exact Hn. apply (wf_heap _ _ Hwf).
    + intros id a0 Hid. destruct (wf_reg _ _ Hwf _ _ Hid) as (c & Hc & ? & ?).
      exists c. rewrite lookup_insert_ne by exact (lookup_old_ne _ _ _ Hc). auto.
    + intros n h Hh. destruct (wf_dim _ _ Hwf _ _ Hh) as (a0 & c & Hc & ? & ?).
      exists a0, c. rewrite lookup_insert_ne by exact (lookup_old_ne _ _ _ Hc). auto.
    + intros L0 a0. destruct (decide (L = L0)) as [<-|Hn].
      * rewrite lookup_insert_eq. intros [= <-]. split; [exact HL|]. split; [exact Hexp|].
        exists ch. rewrite lookup_insert_ne by exact Hne. exact Hobj.
      * rewrite lookup_insert_ne by exact Hn. intros H0.
        destruct (wf_vec _ _ Hwf _ _ H0) as (? & ? & ch0 & Hc0). split; [auto|]. split; [auto|].
        exists ch0. rewrite lookup_insert_ne by exact (lookup_old_ne _ _ _ Hc0). exact Hc0.
    + intros L0 a0 HL0 H0. pose proof (wf_vec_reg _ _ Hwf _ _ HL0 H0) as Hp.
      destruct (decide (L = L0)) as [<-|Hn].
      * rewrite lookup_insert_eq. congruence.
      * rewrite lookup_insert_ne by exact Hn. exact Hp.
    + intros m a0 Hm. destruct (wf_gauge _ _ Hwf _ _ Hm) as (v & Hv).
      exists v. rewrite lookup_insert_ne by exact (lookup_old_ne _ _ _ Hv). exact Hv.
    + apply (wf_metrics _ _ Hwf).
  - (* a new registration *)
    rewrite register_new by assumption.
    assert (Hpg : promGaugeVec st !! L = None).
    { destruct (promGaugeVec st !! L) as [a|] eqn:E; [|reflexivity].
      destruct (wf_vec _ _ Hwf _ _ E) as (_ & H & _). congruence. }
    exists (newAddr st). eexists. split; [reflexivity|].
    split; [|cbn; repeat split; auto].
    constructor; cbn.
    + intros a0 c0. destruct (decide (newAddr st = a0)) as [<-|Hn].
      * rewrite lookup_insert_eq. intros [= <-]. right. eauto.
      * rewrite lookup_insert_ne by exact Hn. apply (wf_heap _ _ Hwf).
    + intros id a0.
      destruct (decide (prometheus.descID (vecDesc L) = id)) as [<-|Hn].
      * rewrite lookup_insert_eq. intros [= <-]. eexists.
        rewrite !lookup_insert_eq. split; [reflexivity|]. cbn. rewrite lookup_insert_eq. auto.
      * rewrite lookup_insert_ne by exact Hn. intros Hid.
        destruct (wf_reg _ _ Hwf _ _ Hid) as (c & Hc & Hidc & Hdim).
        exists c. rewrite lookup_insert_ne by exact (lookup_old_ne _ _ _ Hc).
        split; [exact Hc|]. split; [exact Hidc|].
        destruct (decide (prometheus.fqName (vecDesc L) = prometheus.fqName (prometheus.Describe c)))
          as [E|E].
        -- rewrite <- E, lookup_insert_eq. f_equal. symmetry. apply Hcons. rewrite E. exact Hdim.
        -- rewrite lookup_insert_ne by exact E. exact Hdim.
    + intros n h.
      destruct (decide (prometheus.fqName (vecDesc L) = n)) as [<-|Hn].
      * rewrite lookup_insert_eq. intros [= <-]. eexists _, _.
        rewrite lookup_insert_eq. split; [reflexivity|]. cbn. auto.
      * rewrite lookup_insert_ne by exact Hn. intros Hh.
        destruct (wf_dim _ _ Hwf _ _ Hh) as (a0 & c & Hc & ? & ?).
        exists a0, c. rewrite lookup_insert_ne by exact (lookup_old_ne _ _ _ Hc). auto.
    + intros L0 a0. unfold exportedAs. cbn. destruct (decide (L = L0)) as [<-|Hn].
      * rewrite lookup_insert_eq. intros [= <-]. rewrite !lookup_insert_eq. eauto.
      * rewrite lookup_insert_ne by exact Hn. intros H0.
        destruct (wf_vec _ _ Hwf _ _ H0) as (HL0 & Hexp0 & ch0 & Hc0). split; [auto|].
        rewrite lookup_insert_ne by (intros E; apply Hn; apply descID_vec_inj; auto).
        split; [exact Hexp0|].
        exists ch0. rewrite lookup_insert_ne by exact (lookup_old_ne _ _ _ Hc0). exact Hc0.
    + intros L0 a0 HL0. unfold exportedAs. cbn. destruct (decide (L = L0)) as [<-|Hn].
      * rewrite !lookup_insert_eq. auto.
      * rewrite lookup_insert_ne by (intros E; apply Hn; apply descID_vec_inj; auto).
        rewrite lookup_insert_ne by exact Hn. apply (wf_vec_reg _ _ Hwf _ _ HL0).
    + intros m a0 Hm. destruct (wf_gauge _ _ Hwf _ _ Hm) as (v & Hv).
      exists v. rewrite lookup_insert_ne by exact (lookup_old_ne _ _ _ Hv). exact Hv.
    + apply (wf_metrics _ _ Hwf).
Qed.


Lemma same_shape (c c' : prometheus.Collector) :
  prometheus.Describe c' = prometheus.Describe c ->
  prometheus.isGaugeVec c' = prometheus.isGaugeVec c ->
  (forall d v, c = prometheus.Gauge d v -> exists v', c' = prometheus.Gauge d v')
  /\ (forall d ch, c = prometheus.GaugeVec d ch -> exists ch', c' = prometheus.GaugeVec d ch').
Proof.
  destruct c, c'; cbn; intros -> ?; try discriminate;
    split; intros ? ? [= -> ->]; eauto.
Qed.

(** Changing the value held by an object keeps the state well formed. *)
Lemma wf_update (st : State) (a : nat) (c c' : prometheus.Collector) :
  wf config st -> heap st !! a = Some c ->
  prometheus.Describe c' = prometheus.Describe c ->
  prometheus.isGaugeVec c' = prometheus.isGaugeVec c ->
  wf config (set_heap (<[a := c']> (heap st)) st).
Proof.
  intros Hwf Ha Hd Hk. destruct (same_shape _ _ Hd Hk) as [Hg Hv].
  assert (Hlook : forall a0 c0, heap st !! a0 = Some c0 ->
            exists c0', <[a := c']> (heap st) !! a0 = Some c0'
                        /\ prometheus.Describe c0' = prometheus.Describe c0
                        /\ (forall d v, c0 = prometheus.Gauge d v ->
                              exists v', c0' = prometheus.Gauge d v')
                        /\ (forall d ch, c0 = prometheus.GaugeVec d ch ->
                              exists ch', c0' = prometheus.GaugeVec d ch')).
  { intros a0 c0 H0. destruct (decide (a = a0)) as [<-|Hn].
    - exists c'. rewrite lookup_insert_eq. assert (c0 = c) as -> by congruence. auto.
    - exists c0. rewrite lookup_insert_ne by exact Hn. repeat split; eauto. }
  constructor; cbn.
  - intros a0 c0. destruct (decide (a = a0)) as [<-|Hn].
    + rewrite lookup_insert_eq. intros [= <-].
      destruct (wf_heap _ _ Hwf _ _ Ha) as [(m & v & -> & Hm)|(L & ch & HL & ->)].
      * destruct (Hg _ _ eq_refl) as [v' ->]. left. eauto.
      * destruct (Hv _ _ eq_refl) as [ch' ->]. right. eauto.
    + rewrite lookup_insert_ne by exact Hn. apply (wf_heap _ _ Hwf).
  - intros id a0 Hid. destruct (wf_reg _ _ Hwf _ _ Hid) as (c0 & Hc0 & -> & Hdim).
    destruct (Hlook _ _ Hc0) as (c0' & H1 & H2 & _). exists c0'. rewrite H2. auto.
  - intros n h Hh. destruct (wf_dim _ _ Hwf _ _ Hh) as (a0 & c0 & Hc0 & -> & ->).
    destruct (Hlook _ _ Hc0) as (c0' & H1 & H2 & _). exists a0, c0'. rewrite H2. auto.
  - intros L a0 HL. destruct (wf_vec _ _ Hwf _ _ HL) as (? & ? & ch & Hc0).
    split; [auto|]. split; [auto|].
    destruct (Hlook _ _ Hc0) as (c0' & H1 & _ & _ & H3).
    destruct (H3 _ _ eq_refl) as [ch' ->]. eauto.
  - apply (wf_vec_reg _ _ Hwf).
  - intros m a0 Hm. destruct (wf_gauge _ _ Hwf _ _ Hm) as (v & Hc0).
    destruct (Hlook _ _ Hc0) as (c0' & H1 & _ & H3 & _).
    destruct (H3 _ _ eq_refl) as [v' ->]. eauto.
  - apply (wf_metrics _ _ Hwf).
Qed.


(** ** One row of the loop *)

Variable ParseFloat : string -> parsed.

Lemma collectRow_skipped (row : list string) (st : State) :
  skipped row = true -> collectRow ParseFloat row st = Returned tt st.
Proof.
  destruct row as [|category rest]; [discriminate|]. cbn [skipped]. intros H.
  unfold collectRow, bind, index. cbn. rewrite H. reflexivity.
Qed.

Lemma specRow_skipped (table : string -> string -> option float64) (row : list string) :
  skipped row = true -> specRow ParseFloat table row = table.
Proof.
  destruct row as [|category [|action [|cell rest]]]; try reflexivity.
  cbn. intros ->. reflexivity.
Qed.

(** A row that is kept: its vector is registered or found, and its cell
    is set, all other cells and all scalars staying as they are. *)
Lemma collectRow_kept (category action cell : string) (rest : list string) (st : State) :
  wf config st ->
  strings.Contains category "(not set)" = false ->
  utf8.ValidString category = true ->
  let row := category :: action :: cell :: rest in
  let L := derivedName action in
  exists a st',
    collectRow ParseFloat row st = Returned tt st'
    /\ wf config st'
    /\ promGaugeVec st' = <[L := a]> (promGaugeVec st)
    /\ (promGaugeVec st !! L = Some a \/ promGaugeVec st !! L = None)
    /\ exportedAs st' (vecDesc L) = Some a
    /\ promGauge st' = promGauge st
    /\ requests st' = requests st
    /\ (forall m, scalarOf st' m = scalarOf st m)
    /\ (forall L0 c0, vectorOf st' L0 c0 = specRow ParseFloat (vectorOf st) row L0 c0).
Proof.
  intros Hwf Hcat Hutf row L.
  destruct (wf_registerMetricVec st L Hwf (sanitized_derived action))
    as (a & st1 & Hreg & Hwf1 & Hpgv1 & Hheap1 & Hpg1 & Hreq1 & Hcase).
  assert (Ha1 : promGaugeVec st1 !! L = Some a) by (rewrite Hpgv1; apply lookup_insert_eq).
  destruct (wf_vec _ _ Hwf1 _ _ Ha1) as (_ & Hexp1 & ch1 & Hobj1).
  set (v := value_of (ParseFloat cell)).
  set (c' := prometheus.GaugeVec (vecDesc L) (<[[category] := v]> ch1)).
  exists a, (set_heap (<[a := c']> (heap st1)) st1).
  assert (Hrun : collectRow ParseFloat row st
                 = Returned tt (set_heap (<[a := c']> (heap st1)) st1)).
  { unfold collectRow, bind, index. cbn [lookup list_lookup row]. unfold ret at 1.
    rewrite Hcat. cbn [negb]. unfold ret at 1.
    rewrite buildMetricLabel_eq. cbn [lift]. unfold ret at 1.
    change (labelPrefix +:+ "_" +:+ string_filter is_alnum action) with L.
    rewrite Hreg. unfold ret at 1. unfold gets. rewrite Ha1.
    unfold GaugeVec_WithLabelValues_Set. rewrite Hobj1. cbn. rewrite Hutf. reflexivity. }
  split; [exact Hrun|].
  split; [apply (wf_update _ _ _ _ Hwf1 Hobj1); reflexivity|].
  split; [exact Hpgv1|]. split; [tauto|]. split; [exact Hexp1|].
  split; [exact Hpg1|]. split; [exact Hreq1|].
  assert (Hold : forall b c, heap st !! b = Some c -> heap st1 !! b = Some c).
  { intros b c Hb. rewrite Hheap1, lookup_insert_ne by exact (lookup_old_ne _ _ _ Hb). exact Hb. }
  split.
  - (* the scalars *)
    intros m. unfold scalarOf. cbn [promGauge set_heap heap]. rewrite Hpg1.
    destruct (promGauge st !! m) as [g|] eqn:Hg; [|reflexivity].
    destruct (wf_gauge _ _ Hwf _ _ Hg) as (w & Hw). rewrite Hw.
    rewrite lookup_insert_ne; [rewrite (Hold _ _ Hw); reflexivity|].
    intros <-. rewrite (Hold _ _ Hw) in Hobj1. discriminate.
  - (* the vector cells *)
    intros L0 c0. unfold vectorOf at 1. cbn [promGaugeVec set_heap heap row specRow].
    rewrite Hcat, Hpgv1. fold L.
    destruct (decide (L = L0)) as [<-|HL].
    + rewrite !lookup_insert_eq. subst c'. cbn.
      destruct (decide ([category] = [c0])) as [E|E].
      * rewrite E, lookup_insert_eq. injection E as <-.
        rewrite bool_decide_eq_true_2 by auto. reflexivity.
      * rewrite lookup_insert_ne by exact E.
        rewrite bool_decide_eq_false_2 by (intros [_ ->]; congruence).
        unfold vectorOf. destruct Hcase as [Hsome|[Hnone ->]].
        -- rewrite Hsome. destruct (wf_vec _ _ Hwf _ _ Hsome) as (_ & _ & ch & Hch).
           rewrite Hch. rewrite (Hold _ _ Hch) in Hobj1. congruence.
        -- rewrite Hnone. rewrite Hheap1, lookup_insert_eq in Hobj1.
           injection Hobj1 as <-. apply lookup_empty.
    + rewrite lookup_insert_ne by exact HL.
      rewrite bool_decide_eq_false_2 by (intros [-> _]; congruence).
      unfold vectorOf. destruct (promGaugeVec st !! L0) as [b|] eqn:Hb; [|reflexivity].
      destruct (wf_vec _ _ Hwf _ _ Hb) as (_ & _ & ch & Hch). rewrite Hch.
      rewrite lookup_insert_ne; [rewrite (Hold _ _ Hch); reflexivity|].
      intros <-. rewrite (Hold _ _ Hch) in Hobj1.
      assert (E : vecDesc L0 = vecDesc L) by congruence.
      apply HL. symmetry. apply vecDesc_help_inj. rewrite E. reflexivity.
Qed.


(** ** The loop over the rows *)

Lemma specRow_ext (t1 t2 : string -> string -> option float64) (row : list string) :
  (forall L c, t1 L c = t2 L c) ->
  forall L c, specRow ParseFloat t1 row L c = specRow ParseFloat t2 row L c.
Proof.
  intros H L c. destruct row as [|category [|action [|cell rest]]]; cbn; auto.
  destruct (strings.Contains category "(not set)"); auto.
  destruct (bool_decide _); auto.
Qed.

Lemma specRows_ext (rows : list (list string)) :
  forall t1 t2 : string -> string -> option float64,
  (forall L c, t1 L c = t2 L c) ->
  forall L c, specRows ParseFloat rows t1 L c = specRows ParseFloat rows t2 L c.
Proof.
  induction rows as [|row rows IH]; intros t1 t2 H; cbn; [exact H|].
  apply IH. apply specRow_ext, H.
Qed.

Lemma rowShaped_cases (row : list string) :
  rowShaped row = true ->
  skipped row = true
  \/ exists category action cell rest,
       row = category :: action :: cell :: rest
       /\ strings.Contains category "(not set)" = false.
Proof.
  destruct row as [|category [|action [|cell rest]]]; cbn; try discriminate.
  - rewrite orb_false_r. auto.
  - rewrite orb_false_r. auto.
  - destruct (strings.Contains category "(not set)") eqn:E; [auto|].
    intros _. right. eauto 8.
Qed.

Lemma collect_rows (rows : list (list string)) :
  forall st, wf config st ->
  forallb rowShaped rows = true -> forallb rowValid rows = true ->
  exists st',
    forEach rows (collectRow ParseFloat) st = Returned tt st'
    /\ wf config st'
    /\ promGaugeVec st ⊆ promGaugeVec st'
    /\ promGauge st' = promGauge st
    /\ requests st' = requests st
    /\ (forall m, scalarOf st' m = scalarOf st m)
    /\ (forall L c, vectorOf st' L c = specRows ParseFloat rows (vectorOf st) L c)
    /\ (forallb skipped rows = true -> st' = st)
    /\ (forall category action cell rest,
          category :: action :: cell :: rest ∈ rows ->
          strings.Contains category "(not set)" = false ->
          is_Some (promGaugeVec st' !! derivedName action)).
Proof.
  induction rows as [|row rows IH]; intros st Hwf Hshape Hvalid.
  - exists st. split; [reflexivity|]. split; [exact Hwf|].
    repeat split; try reflexivity; auto.
    intros ? ? ? ? H. inversion H.
  - cbn [forallb] in Hshape, Hvalid.
    apply andb_true_iff in Hshape as [Hrow Hshape].
    apply andb_true_iff in Hvalid as [Hrv Hvalid].
    cbn [forEach]. unfold bind at 1.
    destruct (rowShaped_cases _ Hrow)
      as [Hskip|(category & action & cell & rest & -> & Hcat)].
    + rewrite (collectRow_skipped _ _ Hskip).
      destruct (IH st Hwf Hshape Hvalid) as (st' & Hrun & H).
      exists st'. split; [exact Hrun|].
      cbn [specRows fold_left]. rewrite (specRow_skipped _ _ Hskip).
      cbn [forallb]. rewrite Hskip.
      destruct H as (H1 & H2 & H3 & H4 & H5 & H6 & H7 & H8).
      repeat (split; [assumption|]).
      intros category action cell rest [E|Hin]%elem_of_cons Hcat; [|eauto].
      subst row. cbn in Hskip. congruence.
    + assert (Hutf : utf8.ValidString category = true).
      { cbn in Hrv. rewrite Hcat in Hrv. exact Hrv. }
      destruct (collectRow_kept category action cell rest st Hwf Hcat Hutf)
        as (a & st1 & Hrun1 & Hwf1 & Hpgv1 & Hcase & _ & Hpg1 & Hreq1 & Hsc1 & Hvec1).
      rewrite Hrun1.
      destruct (IH st1 Hwf1 Hshape Hvalid)
        as (st' & Hrun & Hwf' & Hsub & Hpg & Hreq & Hsc & Hvec & _ & Hkept).
      exists st'. split; [exact Hrun|]. split; [exact Hwf'|].
      split.
      { etransitivity; [|exact Hsub]. rewrite Hpgv1.
        destruct Hcase as [Hsome|Hnone].
        - rewrite insert_id by exact Hsome. reflexivity.
        - apply insert_subseteq. exact Hnone. }
      split; [congruence|]. split; [congruence|].
      split; [intros m; rewrite Hsc; apply Hsc1|].
      split.
      { intros L c. rewrite Hvec. cbn [specRows fold_left]. apply specRows_ext. exact Hvec1. }
      split; [cbn [forallb skipped]; rewrite Hcat; discriminate|].
      intros category' action' cell' rest' [E|Hin]%elem_of_cons Hcat'; [|eauto].
      injection E as -> -> -> ->. exists a.
      apply (lookup_weaken (promGaugeVec st1)); [|exact Hsub].
      rewrite Hpgv1. apply lookup_insert_eq.
Qed.


(** ** Panics that cannot happen *)

Lemma avoids_bind {A B : Type} (P : panic -> Prop) (m : M A) (f : A -> M B) (st : State) :
  avoids P (m st) ->
  (forall a st', m st = Returned a st' -> avoids P (f a st')) ->
  avoids P (bind m f st).
Proof. unfold bind. destruct (m st); cbn; auto. Qed.

Lemma index_returned {A : Type} (l : list A) (i : nat) (st st' : State) (x : A) :
  index l i st = Returned x st' -> l !! i = Some x /\ st' = st.
Proof. unfold index. destruct (l !! i); cbn; [|discriminate]. intros [= -> ->]. auto. Qed.

Lemma avoids_forEach {A : Type} (P : panic -> Prop) (body : A -> M unit) (l : list A) :
  (forall x, x ∈ l -> forall st, avoids P (body x st)) ->
  forall st, avoids P (forEach l body st).
Proof.
  induction l as [|x l IH]; intros H st; cbn; [exact I|].
  apply avoids_bind.
  - apply H. left.
  - intros _ st' _. apply IH. intros y Hy. apply H. right. exact Hy.
Qed.

Lemma avoids_index {A : Type} (P : panic -> Prop) (l : list A) (i : nat) (st : State) :
  (P IndexOutOfRange -> i < length l) -> avoids P (index l i st).
Proof.
  unfold index. destruct (l !! i) eqn:E; cbn; [auto|].
  intros HP. apply lookup_ge_None in E. intros H. apply HP in H. lia.
Qed.

Lemma avoids_registerMetricVec (P : panic -> Prop) (metric : string) (st : State) :
  ~ P TypeAssertion -> (forall e, ~ P (RegistrationError e)) ->
  avoids P (registerMetricVec metric st).
Proof.
  intros Hta Hre. rewrite registerMetricVec_unfold.
  destruct (registerVecAnswer metric st) as [r|[existing| |]].
  - exact I.
  - destruct (heap (withNewVec metric st) !! existing) as [[d v|d ch]|]; cbn; auto.
  - apply Hre.
  - apply Hre.
Qed.

Lemma avoids_vec_set (P : panic -> Prop) (v : option nat) (lvs : list string)
    (val : float64) (st : State) :
  ~ P NilDereference -> (forall e, ~ P (LabelValueError e)) ->
  avoids P (GaugeVec_WithLabelValues_Set v lvs val st).
Proof.
  intros Hnil Hlv. unfold GaugeVec_WithLabelValues_Set.
  destruct v as [a|]; cbn; auto.
  destruct (heap st !! a) as [[d w|d ch]|]; cbn; auto.
  destruct (negb _); cbn; [apply Hlv|]. destruct (negb _); cbn; [apply Hlv|exact I].
Qed.

Lemma avoids_gauge_set (P : panic -> Prop) (g : option nat) (val : float64) (st : State) :
  ~ P NilDereference -> avoids P (Gauge_Set g val st).
Proof.
  intros Hnil. unfold Gauge_Set. destruct g as [a|]; cbn; auto.
  destruct (heap st !! a) as [[d w|d ch]|]; cbn; auto.
Qed.

Lemma avoids_lift_label (P : panic -> Prop) (action : string) (st : State) :
  avoids P (lift (buildMetricLabel action) st).
Proof. rewrite buildMetricLabel_eq. exact I. Qed.

(** The panics of a row are index panics only if the row lacks a cell the
    loop reads, and never request panics. *)
Lemma avoids_collectRow (P : panic -> Prop) (row : list string) (st : State) :
  (P IndexOutOfRange -> rowShaped row = true) ->
  ~ P TypeAssertion -> ~ P NilDereference ->
  (forall e, ~ P (RegistrationError e)) -> (forall e, ~ P (LabelValueError e)) ->
  avoids P (collectRow ParseFloat row st).
Proof.
  intros Hidx Hta Hnil Hre Hlv. unfold collectRow.
  apply avoids_bind.
  { apply avoids_index. intros HP. apply Hidx in HP. destruct row; [discriminate|cbn; lia]. }
  intros category st1 [Hrow _]%index_returned.
  destruct (strings.Contains category "(not set)") eqn:Hcat; cbn [negb]; [exact I|].
  assert (Hlen : P IndexOutOfRange -> 3 <= length row).
  { intros HP. apply Hidx in HP. destruct row as [|c0 rest]; [discriminate|].
    injection Hrow as ->. cbn [rowShaped skipped] in HP. rewrite Hcat in HP.
    cbn [orb] in HP. apply Nat.leb_le in HP. exact HP. }
  apply avoids_bind; [apply avoids_index; intros HP; apply Hlen in HP; lia|].
  intros action st2 _. apply avoids_bind; [apply avoids_lift_label|].
  intros label st3 _. apply avoids_bind; [apply avoids_registerMetricVec; auto|].
  intros _ st4 _. apply avoids_bind; [apply avoids_index; intros HP; apply Hlen in HP; lia|].
  intros cell st5 _. apply avoids_bind; [exact I|].
  intros v st6 _. apply avoids_vec_set; auto.
Qed.


(** ** One fetch *)

Lemma collectMetric_unfold (rts : analytics.DataRealtimeService)
    (metric gaDimensions : string) (st : State) :
  collectMetric config ParseFloat rts metric gaDimensions st =
  match rts (requestFor config metric gaDimensions) with
  | inr err =>
      Panicked (RequestError err) (logRequest (requestFor config metric gaDimensions) st)
  | inl m =>
      interpret ParseFloat metric m
        (logRequest (requestFor config metric gaDimensions) st)
  end.
Proof.
  unfold collectMetric, requestFor, bind, Do, logRequest.
  destruct (0 <? String.length gaDimensions)%nat; cbn [analytics.ids analytics.metrics];
    destruct (rts _); reflexivity.
Qed.

Lemma wf_logRequest (getc : analytics.DataRealtimeGetCall) (st : State) :
  wf config st -> wf config (logRequest getc st).
Proof. intros []. constructor; assumption. Qed.

Lemma avoids_interpret (P : panic -> Prop) (metric : string) (m : analytics.RealtimeData)
    (st : State) :
  (P IndexOutOfRange -> wellShaped (analytics.Rows m) = true) ->
  ~ P TypeAssertion -> ~ P NilDereference ->
  (forall e, ~ P (RegistrationError e)) -> (forall e, ~ P (LabelValueError e)) ->
  avoids P (interpret ParseFloat metric m st).
Proof.
  intros Hidx Hta Hnil Hre Hlv. unfold interpret.
  destruct (length (analytics.Rows m) =? 1)%nat eqn:Hlen.
  - apply Nat.eqb_eq in Hlen.
    destruct (analytics.Rows m) as [|row [|row' rows]] eqn:Hrows; try discriminate.
    apply avoids_bind; [apply avoids_index; cbn; lia|].
    intros row0 st1 [[= <-] _]%index_returned.
    apply avoids_bind.
    { apply avoids_index. intros HP. apply Hidx in HP. cbn [wellShaped] in HP.
      apply Nat.leb_le in HP. lia. }
    intros cell st2 _. apply avoids_bind; [exact I|].
    intros g st3 _. apply avoids_gauge_set. exact Hnil.
  - apply avoids_forEach. intros row Hrow st1. apply avoids_collectRow; auto.
    intros HP. apply Hidx in HP.
    assert (Hall : forallb rowShaped (analytics.Rows m) = true).
    { destruct (analytics.Rows m) as [|r0 [|r1 rows]]; try exact HP. discriminate. }
    rewrite forallb_forall in Hall. apply Hall, list_elem_of_In, Hrow.
Qed.

(** C6.  When the request fails the worker panics with the error of the
    request; by then exactly one call has been sent and nothing else of
    the state has changed.  When the request succeeds the worker does not
    panic with a request error. *)
Theorem collectMetric_request_error (rts : analytics.DataRealtimeService)
    (metric gaDimensions : string) (st : State) :
  (forall err, rts (requestFor config metric gaDimensions) = inr err ->
     collectMetric config ParseFloat rts metric gaDimensions st
     = Panicked (RequestError err) (logRequest (requestFor config metric gaDimensions) st)
     /\ requests (logRequest (requestFor config metric gaDimensions) st)
        = requestFor config metric gaDimensions :: requests st)
  /\ (forall m, rts (requestFor config metric gaDimensions) = inl m ->
        avoids (fun p => exists err, p = RequestError err)
               (collectMetric config ParseFloat rts metric gaDimensions st)).
Proof.
  split.
  - intros err H. rewrite collectMetric_unfold, H. split; reflexivity.
  - intros m H. rewrite collectMetric_unfold, H.
    apply avoids_interpret; try (intros [? [=]]); try (intros ? [? [=]]).
Qed.

(** A row that lacks a cell the loop reads makes the loop body panic. *)
Lemma collectRow_unshaped (row : list string) (st : State) :
  rowShaped row = false ->
  exists p st', collectRow ParseFloat row st = Panicked p st'.
Proof.
  destruct row as [|category [|action [|cell rest]]]; cbn [rowShaped skipped].
  - intros _. cbn. eauto.
  - rewrite orb_false_r. intros H.
    unfold collectRow, bind, index, ret. cbn [lookup list_lookup]. rewrite H. cbn. eauto.
  - rewrite orb_false_r. intros H.
    unfold collectRow, bind, index, ret. cbn [lookup list_lookup]. rewrite H.
    rewrite buildMetricLabel_eq. cbn.
    destruct (registerMetricVec _ st); cbn; eauto.
  - destruct (strings.Contains category "(not set)"); cbn; discriminate.
Qed.

Lemma rows_unshaped (rows : list (list string)) :
  forallb rowShaped rows = false ->
  forall st, exists p st', forEach rows (collectRow ParseFloat) st = Panicked p st'.
Proof.
  induction rows as [|row rows IH]; [discriminate|].
  cbn [forallb forEach]. intros H st. unfold bind at 1.
  destruct (rowShaped row) eqn:Hrow.
  - destruct (collectRow ParseFloat row st) as [[] st1|p st1]; [|eauto]. apply IH, H.
  - destruct (collectRow_unshaped row st Hrow) as (p & st' & ->). eauto.
Qed.

(** In a well-formed state, with valid categories, the panic is the index
    panic of that row. *)
Lemma collectRow_unshaped_index (row : list string) (st : State) :
  wf config st -> rowShaped row = false ->
  exists st', collectRow ParseFloat row st = Panicked IndexOutOfRange st'.
Proof.
  intros Hwf.
  destruct row as [|category [|action [|cell rest]]]; cbn [rowShaped skipped].
  - intros _. cbn. eauto.
  - rewrite orb_false_r. intros H.
    unfold collectRow, bind, index, ret. cbn [lookup list_lookup]. rewrite H. cbn. eauto.
  - rewrite orb_false_r. intros H.
    unfold collectRow, bind, index, ret. cbn [lookup list_lookup]. rewrite H.
    rewrite buildMetricLabel_eq. cbn.
    destruct (wf_registerMetricVec st _ Hwf (sanitized_derived action))
      as (a & st1 & Hreg & _).
    unfold derivedName in Hreg. rewrite Hreg. cbn. eauto.
  - destruct (strings.Contains category "(not set)"); cbn; discriminate.
Qed.

Lemma rows_unshaped_index (rows : list (list string)) :
  forallb rowShaped rows = false -> forallb rowValid rows = true ->
  forall st, wf config st ->
  exists st', forEach rows (collectRow ParseFloat) st = Panicked IndexOutOfRange st'.
Proof.
  induction rows as [|row rows IH]; [discriminate|].
  cbn [forallb forEach]. intros H [Hrv Hvalid]%andb_true_iff st Hwf. unfold bind at 1.
  destruct (rowShaped row) eqn:Hrow.
  - destruct (collect_rows [row] st Hwf) as (st1 & Hrun & Hwf1 & _).
    { cbn. rewrite Hrow. reflexivity. }
    { cbn. rewrite Hrv. reflexivity. }
    cbn [forEach] in Hrun. unfold bind, ret in Hrun.
    destruct (collectRow ParseFloat row st) as [[] st2|p st2]; [|discriminate].
    injection Hrun as ->. apply IH; assumption.
  - destruct (collectRow_unshaped_index row st Hwf Hrow) as (st' & ->). eauto.
Qed.

(** C10.  The index panic of the interpretation of a result is
    unreachable exactly when the result is well shaped: a well-shaped
    result never ends in it; a result that is not well shaped never lets
    the worker return, and in a well-formed state with valid categories
    the panic it ends in is the index panic. *)
Theorem collectMetric_index_panic (rts : analytics.DataRealtimeService)
    (metric gaDimensions : string) (st : State) (m : analytics.RealtimeData) :
  rts (requestFor config metric gaDimensions) = inl m ->
  (wellShaped (analytics.Rows m) = true ->
     avoids (fun p => p = IndexOutOfRange)
            (collectMetric config ParseFloat rts metric gaDimensions st))
  /\ (wellShaped (analytics.Rows m) = false ->
        exists p st',
          collectMetric config ParseFloat rts metric gaDimensions st = Panicked p st')
  /\ (wellShaped (analytics.Rows m) = false ->
        wf config st -> forallb rowValid (analytics.Rows m) = true ->
        exists st',
          collectMetric config ParseFloat rts metric gaDimensions st
          = Panicked IndexOutOfRange st').
Proof.
  intros Hrts. rewrite collectMetric_unfold, Hrts.
  set (st0 := logRequest _ st).
  split; [|split].
  - intros Hshape. apply avoids_interpret; try discriminate; auto.
  - intros Hshape. unfold interpret.
    destruct (analytics.Rows m) as [|row [|row' rows]] eqn:Hrows.
    + discriminate.
    + cbn [wellShaped] in Hshape. apply Nat.leb_gt in Hshape.
      destruct row; [|cbn in Hshape; lia]. cbn. eauto.
    + change (length (row :: row' :: rows) =? 1)%nat with false. cbv iota.
      apply rows_unshaped. exact Hshape.
  - intros Hshape Hwf Hvalid. unfold interpret.
    destruct (analytics.Rows m) as [|row [|row' rows]] eqn:Hrows.
    + discriminate.
    + cbn [wellShaped] in Hshape. apply Nat.leb_gt in Hshape.
      destruct row; [|cbn in Hshape; lia]. cbn. eauto.
    + change (length (row :: row' :: rows) =? 1)%nat with false. cbv iota.
      apply rows_unshaped_index; auto. apply wf_logRequest, Hwf.
Qed.


(** C1.  A result without exactly one row is run through row by row.  In
    a well-formed state, for a well-shaped result with valid categories,
    the worker returns; the table of vector cells is then the old one
    with every row applied in order, a row whose category contains
    "(not set)" changing nothing and any other row setting the cell
    (derived name, category) to the parsed third cell; the scalars are
    untouched; the vector of every row that is kept is bound to its
    derived name and exported; and when every row is passed over, in
    particular when there is no row, the state is the old one with the
    call logged. *)
Theorem collectMetric_rows (rts : analytics.DataRealtimeService)
    (metric gaDimensions : string) (st : State) (m : analytics.RealtimeData) :
  wf config st ->
  rts (requestFor config metric gaDimensions) = inl m ->
  length (analytics.Rows m) <> 1 ->
  wellShaped (analytics.Rows m) = true ->
  forallb rowValid (analytics.Rows m) = true ->
  exists st',
    collectMetric config ParseFloat rts metric gaDimensions st = Returned tt st'
    /\ wf config st'
    /\ (forall L c,
          vectorOf st' L c = specRows ParseFloat (analytics.Rows m) (vectorOf st) L c)
    /\ (forall m', scalarOf st' m' = scalarOf st m')
    /\ (forall category action cell rest,
          category :: action :: cell :: rest ∈ analytics.Rows m ->
          strings.Contains category "(not set)" = false ->
          exists a, promGaugeVec st' !! derivedName action = Some a
                    /\ exportedAs st' (vecDesc (derivedName action)) = Some a)
    /\ (forallb skipped (analytics.Rows m) = true ->
          st' = logRequest (requestFor config metric gaDimensions) st).
Proof.
  intros Hwf Hrts Hlen Hshape Hvalid. rewrite collectMetric_unfold, Hrts.
  set (st0 := logRequest _ st).
  assert (Hall : forallb rowShaped (analytics.Rows m) = true).
  { destruct (analytics.Rows m) as [|r0 [|r1 rows]]; try exact Hshape. contradiction Hlen; reflexivity. }
  unfold interpret. rewrite (proj2 (Nat.eqb_neq _ _) Hlen).
  destruct (collect_rows (analytics.Rows m) st0 (wf_logRequest _ _ Hwf) Hall Hvalid)
    as (st' & Hrun & Hwf' & _ & _ & _ & Hsc & Hvec & Hskip & Hkept).
  exists st'. split; [exact Hrun|]. split; [exact Hwf'|].
  split; [exact Hvec|]. split; [exact Hsc|]. split; [|exact Hskip].
  intros category action cell rest Hin Hcat.
  destruct (Hkept _ _ _ _ Hin Hcat) as [a Ha]. exists a. split; [exact Ha|].
  apply (wf_vec _ _ Hwf' _ _ Ha).
Qed.

Lemma scalarDesc_help_inj (m m' : string) :
  prometheus.help (scalarDesc m) = prometheus.help (scalarDesc m') -> m = m'.
Proof. unfold scalarDesc, gaugeOpts. simpl. intros H. injection H as H. exact H. Qed.

(** A result of exactly one row: the gauge of the metric takes the value
    the parser returns, and nothing else is touched. *)
Lemma collectMetric_single_row (rts : analytics.DataRealtimeService)
    (metric gaDimensions : string) (st : State) (m : analytics.RealtimeData)
    (cell : string) (rest : list string) :
  wf config st ->
  metric ∈ Metrics config ->
  rts (requestFor config metric gaDimensions) = inl m ->
  analytics.Rows m = [cell :: rest] ->
  exists st',
    collectMetric config ParseFloat rts metric gaDimensions st = Returned tt st'
    /\ wf config st'
    /\ scalarOf st' metric = Some (value_of (ParseFloat cell))
    /\ registry st' = registry st
    /\ promGaugeVec st' = promGaugeVec st
    /\ (forall L c, vectorOf st' L c = vectorOf st L c)
    /\ (forall m', m' <> metric -> scalarOf st' m' = scalarOf st m').
Proof.
  intros Hwf Hin Hrts Hrows. rewrite collectMetric_unfold, Hrts.
  set (st0 := logRequest _ st).
  destruct (wf_metrics _ _ Hwf _ Hin) as [g Hg].
  destruct (wf_gauge _ _ Hwf _ _ Hg) as [v0 Hobj].
  set (v := value_of (ParseFloat cell)).
  set (st' := set_heap (<[g := prometheus.Gauge (scalarDesc metric) v]> (heap st0)) st0).
  assert (Hrun : interpret ParseFloat metric m st0 = Returned tt st').
  { unfold interpret. rewrite Hrows. cbn [length Nat.eqb].
    unfold bind, index, gets, Gauge_Set. cbn [lookup list_lookup ret].
    change (promGauge st0) with (promGauge st). rewrite Hg.
    change (heap st0) with (heap st). rewrite Hobj. reflexivity. }
  assert (Hval : scalarOf st' metric = Some v).
  { unfold scalarOf. cbn. rewrite Hg, lookup_insert_eq. reflexivity. }
  exists st'. split; [exact Hrun|].
  split; [apply (wf_update _ _ _ _ (wf_logRequest _ _ Hwf) Hobj); reflexivity|].
  split; [exact Hval|].
  split; [reflexivity|]. split; [reflexivity|]. split.
  - intros L c. unfold vectorOf. cbn.
    destruct (promGaugeVec st !! L) as [b|] eqn:Hb; [|reflexivity].
    destruct (wf_vec _ _ Hwf _ _ Hb) as (_ & _ & ch & Hch).
    rewrite lookup_insert_ne; [reflexivity|]. intros <-. congruence.
  - intros m' Hne. unfold scalarOf. cbn.
    destruct (promGauge st !! m') as [b|] eqn:Hb; [|reflexivity].
    destruct (wf_gauge _ _ Hwf _ _ Hb) as (w & Hw).
    rewrite lookup_insert_ne; [reflexivity|]. intros <-.
    apply Hne, scalarDesc_help_inj. congruence.
Qed.

(** C2, amended.  A result of exactly one row sets the scalar gauge of
    the metric to what the parser returns for the first cell of that row:
    the number parsed, zero for a cell that is not a number, and the
    signed infinity for a number out of range.  No vector is registered
    or written, no other scalar changes. *)
Theorem collectMetric_scalar (rts : analytics.DataRealtimeService)
    (metric gaDimensions : string) (st : State) (m : analytics.RealtimeData)
    (cell : string) (rest : list string) :
  wf config st ->
  metric ∈ Metrics config ->
  rts (requestFor config metric gaDimensions) = inl m ->
  analytics.Rows m = [cell :: rest] ->
  exists st',
    collectMetric config ParseFloat rts metric gaDimensions st = Returned tt st'
    /\ wf config st'
    /\ scalarOf st' metric = Some (value_of (ParseFloat cell))
    /\ (forall f, ParseFloat cell = Parsed f -> scalarOf st' metric = Some f)
    /\ (ParseFloat cell = ErrSyntax -> scalarOf st' metric = Some zero64)
    /\ (forall negative, ParseFloat cell = ErrRange negative ->
          scalarOf st' metric = Some (Inf negative))
    /\ registry st' = registry st
    /\ promGaugeVec st' = promGaugeVec st
    /\ (forall L c, vectorOf st' L c = vectorOf st L c)
    /\ (forall m', m' <> metric -> scalarOf st' m' = scalarOf st m').
Proof.
  intros Hwf Hin Hrts Hrows.
  destruct (collectMetric_single_row rts metric gaDimensions st m cell rest Hwf Hin Hrts Hrows)
    as (st' & Hrun & Hwf' & Hval & Hrest).
  exists st'. split; [exact Hrun|]. split; [exact Hwf'|]. split; [exact Hval|].
  split; [intros f Hf; rewrite Hval, Hf; reflexivity|].
  split; [intros Hf; rewrite Hval, Hf; reflexivity|].
  split; [intros negative Hf; rewrite Hval, Hf; reflexivity|exact Hrest].
Qed.




(** ** [init] *)

Lemma initMetric_unfold (metric : string) (st : State) :
  initMetric metric st =
  match prometheus.register (registry st) (newAddr st) (scalarDesc metric) with
  | inl r => Returned tt (set_registry r (withNewGauge metric st))
  | inr _ => Returned tt (withNewGauge metric st)
  end.
Proof.
  unfold initMetric, bind, NewGauge, alloc, modify, gets, Register.
  cbn [promGauge set_heap set_promGauge heap registry].
  rewrite !lookup_insert_eq. cbn [prometheus.Describe].
  fold (newAddr st). fold (scalarDesc metric).
  destruct (prometheus.register (registry st) (newAddr st) (scalarDesc metric)); reflexivity.
Qed.

Lemma descID_scalar_vec (m L : string) :
  isVecName (prometheus.fqName (scalarDesc m)) = false -> sanitized L ->
  prometheus.descID (scalarDesc m) <> prometheus.descID (vecDesc L).
Proof.
  intros Hm HL E. apply isVecName_sanitized in HL.
  apply (f_equal fst) in E. change (prometheus.fqName (scalarDesc m)
                                    = prometheus.fqName (vecDesc L)) in E.
  rewrite E in Hm. congruence.
Qed.

Lemma wf_withNewGauge (st : State) (m : string) :
  wf config st -> isVecName (prometheus.fqName (scalarDesc m)) = false ->
  wf config (withNewGauge m st).
Proof.
  intros Hwf Hm. constructor; cbn.
  - intros a0 c0. destruct (decide (newAddr st = a0)) as [<-|Hn].
    + rewrite lookup_insert_eq. intros [= <-]. left. eauto.
    + rewrite lookup_insert_ne by exact Hn. apply (wf_heap _ _ Hwf).
  - intros id a0 Hid. destruct (wf_reg _ _ Hwf _ _ Hid) as (c & Hc & ? & ?).
    exists c. rewrite lookup_insert_ne by exact (lookup_old_ne _ _ _ Hc). auto.
  - intros n h Hh. destruct (wf_dim _ _ Hwf _ _ Hh) as (a0 & c & Hc & ? & ?).
    exists a0, c. rewrite lookup_insert_ne by exact (lookup_old_ne _ _ _ Hc). auto.
  - intros L a0 H0. destruct (wf_vec _ _ Hwf _ _ H0) as (? & ? & ch0 & Hc0).
    split; [auto|]. split; [auto|].
    exists ch0. rewrite lookup_insert_ne by exact (lookup_old_ne _ _ _ Hc0). exact Hc0.
  - apply (wf_vec_reg _ _ Hwf).
  - intros m0 a0. destruct (decide (m = m0)) as [<-|Hn].
    + rewrite lookup_insert_eq. intros [= <-]. rewrite lookup_insert_eq. eauto.
    + rewrite lookup_insert_ne by exact Hn. intros H0.
      destruct (wf_gauge _ _ Hwf _ _ H0) as (v & Hv).
      exists v. rewrite lookup_insert_ne by exact (lookup_old_ne _ _ _ Hv). exact Hv.
  - intros m0 Hin. destruct (decide (m = m0)) as [<-|Hn].
    + rewrite lookup_insert_eq. eauto.
    + rewrite lookup_insert_ne by exact Hn. apply (wf_metrics _ _ Hwf), Hin.
Qed.

(** Registering a gauge whose name is not that of a vector keeps the
    state well formed. *)
Lemma wf_register_gauge (st : State) (a : nat) (m : string) (v : float64)
    (r : prometheus.Registry) :
  wf config st ->
  heap st !! a = Some (prometheus.Gauge (scalarDesc m) v) ->
  isVecName (prometheus.fqName (scalarDesc m)) = false ->
  prometheus.register (registry st) a (scalarDesc m) = inl r ->
  wf config (set_registry r st).
Proof.
  intros Hwf Ha Hm (_ & Hnone & -> & Hcons)%register_inl. constructor; cbn.
  - apply (wf_heap _ _ Hwf).
  - intros id a0.
    destruct (decide (prometheus.descID (scalarDesc m) = id)) as [<-|Hn].
    + rewrite lookup_insert_eq. intros [= <-]. eexists. split; [exact Ha|].
      cbn. rewrite lookup_insert_eq. auto.
    + rewrite lookup_insert_ne by exact Hn. intros Hid.
      destruct (wf_reg _ _ Hwf _ _ Hid) as (c & Hc & Hidc & Hdim).
      exists c. split; [exact Hc|]. split; [exact Hidc|].
      destruct (decide (prometheus.fqName (scalarDesc m) = prometheus.fqName (prometheus.Describe c)))
        as [E|E].
      * rewrite <- E, lookup_insert_eq. f_equal. symmetry. apply Hcons. rewrite E. exact Hdim.
      * rewrite lookup_insert_ne by exact E. exact Hdim.
  - intros n h.
    destruct (decide (prometheus.fqName (scalarDesc m) = n)) as [<-|Hn].
    + rewrite lookup_insert_eq. intros [= <-]. exists a. eexists. split; [exact Ha|]. auto.
    + rewrite lookup_insert_ne by exact Hn. apply (wf_dim _ _ Hwf).
  - intros L a0 H0. destruct (wf_vec _ _ Hwf _ _ H0) as (HL & Hexp & Hch).
    split; [exact HL|]. split; [|exact Hch]. unfold exportedAs. cbn.
    rewrite lookup_insert_ne by (apply descID_scalar_vec; assumption). exact Hexp.
  - intros L a0 HL. unfold exportedAs. cbn.
    rewrite lookup_insert_ne by (apply descID_scalar_vec; assumption).
    apply (wf_vec_reg _ _ Hwf _ _ HL).
  - apply (wf_gauge _ _ Hwf).
  - apply (wf_metrics _ _ Hwf).
Qed.

Lemma wf_initMetric (st : State) (m : string) :
  wf config st -> isVecName (prometheus.fqName (scalarDesc m)) = false ->
  exists st',
    initMetric m st = Returned tt st'
    /\ wf config st'
    /\ requests st' = requests st
    /\ promGaugeVec st' = promGaugeVec st
    /\ promGauge st' = <[m := newAddr st]> (promGauge st).
Proof.
  intros Hwf Hm. rewrite initMetric_unfold.
  pose proof (wf_withNewGauge st m Hwf Hm) as Hwf1.
  destruct (prometheus.register (registry st) (newAddr st) (scalarDesc m)) as [r|e] eqn:Hreg.
  - eexists. split; [reflexivity|]. split; [|auto].
    apply (wf_register_gauge (withNewGauge m st) (newAddr st) m zero64); auto.
    cbn. apply lookup_insert_eq.
  - eexists. split; [reflexivity|]. auto.
Qed.

End Invariant.

Lemma wf_metrics_change (config config' : conf) (st : State) :
  wf config st ->
  (forall m, m ∈ Metrics config' -> is_Some (promGauge st !! m)) ->
  wf config' st.
Proof. intros [] H. constructor; assumption. Qed.

Lemma wf_init_loop (config : conf) (ms : list string) :
  forallb (fun m => negb (isVecName (prometheus.fqName (scalarDesc m)))) ms = true ->
  forall st, wf config st ->
  exists st',
    forEach ms initMetric st = Returned tt st'
    /\ wf config st'
    /\ requests st' = requests st
    /\ promGaugeVec st' = promGaugeVec st
    /\ (forall m, m ∈ ms \/ is_Some (promGauge st !! m) -> is_Some (promGauge st' !! m)).
Proof.
  induction ms as [|m ms IH]; intros Hok st Hwf.
  - exists st. split; [reflexivity|]. split; [exact Hwf|].
    split; [reflexivity|]. split; [reflexivity|].
    intros m [H|H]; [inversion H|exact H].
  - cbn [forallb] in Hok. apply andb_true_iff in Hok as [Hm Hok].
    apply negb_true_iff in Hm.
    destruct (wf_initMetric config st m Hwf Hm) as (st1 & Hrun1 & Hwf1 & Hreq1 & Hvec1 & Hpg1).
    destruct (IH Hok st1 Hwf1) as (st' & Hrun & Hwf' & Hreq & Hvec & Hpg).
    exists st'. cbn [forEach]. unfold bind at 1. rewrite Hrun1.
    split; [exact Hrun|]. split; [exact Hwf'|]. split; [congruence|]. split; [congruence|].
    intros m0 H. apply Hpg. destruct (decide (m = m0)) as [<-|Hn].
    + right. rewrite Hpg1, lookup_insert_eq. eauto.
    + destruct H as [[?|?]%elem_of_cons|H]; [congruence|auto|].
      right. rewrite Hpg1, lookup_insert_ne by exact Hn. exact H.
Qed.

Lemma wf_initial (config : conf) : Metrics config = [] -> wf config initial.
Proof.
  intros H. constructor; cbn; try (intros; rewrite lookup_empty in *; discriminate).
  rewrite H. intros m Hm. inversion Hm.
Qed.

(** Under a configuration without name clash [init] returns and leaves a
    well-formed state, with no vector and no call yet. *)
Lemma wf_init (config : conf) :
  noClash config = true ->
  exists st,
    init config initial = Returned tt st
    /\ wf config st
    /\ requests st = []
    /\ promGaugeVec st = ∅.
Proof.
  intros Hok. unfold init.
  destruct (wf_init_loop (mkConf 0 [] [] "" "") (Metrics config) Hok initial
              (wf_initial (mkConf 0 [] [] "" "") eq_refl))
    as (st & Hrun & Hwf & Hreq & Hvec & Hpg).
  exists st. split; [exact Hrun|]. split; [|auto].
  apply (wf_metrics_change _ _ _ Hwf). intros m Hm. apply Hpg. auto.
Qed.

(** ** Well-formedness is an invariant of the run *)

Section Reachability.

Variable config : conf.
Variable ParseFloat : string -> parsed.

(** A row whose category is not valid UTF-8 and which is not passed over
    panics in [WithLabelValues]. *)
Lemma collectRow_invalid (category action cell : string) (rest : list string) (st : State) :
  wf config st ->
  strings.Contains category "(not set)" = false ->
  utf8.ValidString category = false ->
  exists st',
    collectRow ParseFloat (category :: action :: cell :: rest) st
    = Panicked (LabelValueError prometheus.InvalidUTF8) st'.
Proof.
  intros Hwf Hcat Hutf.
  destruct (wf_registerMetricVec config st (derivedName action) Hwf (sanitized_derived action))
    as (a & st1 & Hreg & Hwf1 & Hpgv1 & _).
  assert (Ha1 : promGaugeVec st1 !! derivedName action = Some a)
    by (rewrite Hpgv1; apply lookup_insert_eq).
  destruct (wf_vec _ _ Hwf1 _ _ Ha1) as (_ & _ & ch1 & Hobj1).
  exists st1. unfold collectRow, bind, index. cbn [lookup list_lookup]. unfold ret at 1.
  rewrite Hcat. cbn [negb]. unfold ret at 1.
  rewrite buildMetricLabel_eq. cbn [lift]. unfold ret at 1.
  change (labelPrefix +:+ "_" +:+ string_filter is_alnum action) with (derivedName action).
  rewrite Hreg. unfold ret at 1. unfold gets. rewrite Ha1.
  unfold GaugeVec_WithLabelValues_Set. rewrite Hobj1. cbn. rewrite Hutf. reflexivity.
Qed.

Lemma collectRow_returned_wf (row : list string) (st st' : State) :
  wf config st -> collectRow ParseFloat row st = Returned tt st' -> wf config st'.
Proof.
  intros Hwf Hrun.
  destruct (rowShaped row) eqn:Hshape.
  - destruct (rowShaped_cases _ Hshape)
      as [Hskip|(category & action & cell & rest & -> & Hcat)].
    + rewrite (collectRow_skipped ParseFloat _ _ Hskip) in Hrun. congruence.
    + destruct (utf8.ValidString category) eqn:Hutf.
      * destruct (collectRow_kept config ParseFloat category action cell rest st Hwf Hcat Hutf)
          as (a & st1 & Hrun1 & Hwf1 & _).
        congruence.
      * destruct (collectRow_invalid category action cell rest st Hwf Hcat Hutf) as (st1 & H1).
        congruence.
  - destruct (collectRow_unshaped ParseFloat row st Hshape) as (p & st1 & H1). congruence.
Qed.

Lemma forEach_returned_wf (rows : list (list string)) :
  forall st st', wf config st ->
  forEach rows (collectRow ParseFloat) st = Returned tt st' -> wf config st'.
Proof.
  induction rows as [|row rows IH]; intros st st' Hwf; cbn [forEach].
  - intros [= <-]. exact Hwf.
  - unfold bind at 1. destruct (collectRow ParseFloat row st) as [[] st1|p st1] eqn:Hrow;
      [|discriminate].
    apply IH. exact (collectRow_returned_wf _ _ _ Hwf Hrow).
Qed.

(** A worker that returns leaves a well-formed state, whatever the data
    source answered. *)
Lemma collectMetric_returned_wf (rts : analytics.DataRealtimeService)
    (metric gaDimensions : string) (st st' : State) :
  wf config st ->
  collectMetric config ParseFloat rts metric gaDimensions st = Returned tt st' ->
  wf config st'.
Proof.
  intros Hwf. rewrite collectMetric_unfold.
  destruct (rts _) as [m|err]; [|discriminate].
  pose proof (wf_logRequest config (requestFor config metric gaDimensions) st Hwf) as Hwf0.
  set (st0 := logRequest _ st) in *. unfold interpret.
  destruct (length (analytics.Rows m) =? 1)%nat; [|apply forEach_returned_wf, Hwf0].
  unfold bind, index, gets, Gauge_Set.
  destruct (analytics.Rows m !! 0) as [row|]; [|discriminate]. cbn [ret].
  destruct (row !! 0) as [cell|]; [|discriminate]. cbn [ret].
  destruct (promGauge st0 !! metric) as [g|]; [|discriminate].
  destruct (heap st0 !! g) as [[d w|d ch]|] eqn:Hobj; try discriminate.
  intros [= <-]. apply (wf_update config st0 g _ _ Hwf0 Hobj); reflexivity.
Qed.

(** Under a configuration without name clash every state of a run is well
    formed. *)
Lemma reachable_wf (st : State) :
  noClash config = true -> reachable config ParseFloat st -> wf config st.
Proof.
  intros Hok Hreach. induction Hreach as [st Hinit|st st' rts metric _ IH Hrun].
  - destruct (wf_init config Hok) as (st1 & Hrun & Hwf & _). congruence.
  - exact (collectMetric_returned_wf _ _ _ _ _ IH Hrun).
Qed.

End Reachability.

Lemma wf_startState (config : conf) :
  noClash config = true -> wf config (startState config).
Proof.
  intros Hok. destruct (wf_init config Hok) as (st & Hrun & Hwf & _).
  unfold startState. rewrite Hrun. exact Hwf.
Qed.

(** ** The dimension resolver *)

Lemma fold_left_last {A B : Type} (g : B -> A) (l : list B) (a : A) :
  fold_left (fun _ x => g x) l a = match last l with Some x => g x | None => a end.
Proof.
  revert a. induction l as [|x l IH]; intros a; [reflexivity|].
  cbn [fold_left]. rewrite IH. destruct l as [|y l]; [reflexivity|].
  rewrite last_cons_cons. destruct (last (y :: l)) eqn:E; [reflexivity|].
  apply last_None in E. discriminate.
Qed.

(** [getDimensions] looks at the last entry alone. *)
Lemma getDimensions_last (config : conf) (metric : string) :
  getDimensions config metric =
  match last (Dimensions config) with
  | Some dimensionMap => strings.Join (default [] (dimensionMap !! metric)) ","
  | None => ""
  end.
Proof. unfold getDimensions. apply fold_left_last. Qed.

(** The code and the specification agree when the last entry defines the
    metric, and when the list is empty. *)
Lemma getDimensions_last_defines (config : conf) (metric : string)
    (entries : list (gmap string (list string))) (entry : gmap string (list string))
    (dims : list string) :
  Dimensions config = (entries ++ [entry])%list ->
  entry !! metric = Some dims ->
  getDimensions config metric = strings.Join dims ","
  /\ dimensionsFor (Dimensions config) metric = strings.Join dims ",".
Proof.
  intros Hd He. rewrite getDimensions_last, Hd, last_snoc, He.
  split; [reflexivity|]. unfold dimensionsFor. rewrite fold_left_app. cbn. rewrite He.
  reflexivity.
Qed.

(** C3 fails on the code.  With one entry for each of two metrics, the
    last entry that defines the first metric is the first entry, whose
    dimensions join to "rt:pagePath"; [getDimensions] returns the empty
    string, the lookup of the metric in the second entry. *)
Theorem getDimensions_earlier_entry_lost :
  getDimensions twoEntries "rt:pageviews" = ""
  /\ dimensionsFor (Dimensions twoEntries) "rt:pageviews" = "rt:pagePath"
  /\ getDimensions twoEntries "rt:activeUsers" = "rt:country".
Proof. repeat split; vm_compute; reflexivity. Qed.

(** ** The theorems at work on example data *)

Lemma exampleConfig_wf : wf exampleConfig (startState exampleConfig).
Proof. apply wf_startState. reflexivity. Qed.

(** The result of the specification's example: the first row is dropped,
    the second one sets the cell ("rt:_mobile", "US") to 7. *)
Lemma collectMetric_rows_witness :
  exists st',
    collectMetric exampleConfig strconv.ParseFloat (serve exampleRows)
      "rt:pageviews" "rt:country,rt:deviceCategory" (startState exampleConfig)
    = Returned tt st'
    /\ vectorOf st' (derivedName "mobile") "US" = Some (dyadic 7 0)
    /\ vectorOf st' (derivedName "x") "(not set)" = None
    /\ (forall m', scalarOf st' m' = scalarOf (startState exampleConfig) m').
Proof.
  destruct (collectMetric_rows exampleConfig strconv.ParseFloat (serve exampleRows)
              "rt:pageviews" "rt:country,rt:deviceCategory" (startState exampleConfig)
              (analytics.mkRealtimeData exampleRows) exampleConfig_wf eq_refl)
    as (st' & Hrun & _ & Hvec & Hsc & _).
  - cbn. lia.
  - reflexivity.
  - reflexivity.
  - exists st'. split; [exact Hrun|]. rewrite !Hvec.
    split; [vm_compute; reflexivity|]. split; [vm_compute; reflexivity|exact Hsc].
Defined.

Lemma collectMetric_scalar_witness :
  strconv.ParseFloat "42.5" = Parsed (dyadic 85 (-1))
  /\ exists st',
       collectMetric exampleConfig strconv.ParseFloat (serve [["42.5"]])
         "rt:activeUsers" "" (startState exampleConfig)
       = Returned tt st'
       /\ scalarOf st' "rt:activeUsers" = Some (dyadic 85 (-1))
       /\ promGaugeVec st' = promGaugeVec (startState exampleConfig).
Proof.
  split; [vm_compute; reflexivity|].
  destruct (collectMetric_scalar exampleConfig strconv.ParseFloat (serve [["42.5"]])
              "rt:activeUsers" "" (startState exampleConfig)
              (analytics.mkRealtimeData [["42.5"]]) "42.5" [] exampleConfig_wf)
    as (st' & Hrun & _ & _ & Hparsed & _ & _ & _ & Hvec & _).
  - apply list_elem_of_here.
  - reflexivity.
  - reflexivity.
  - exists st'. split; [exact Hrun|]. split; [|exact Hvec].
    apply Hparsed. vm_compute. reflexivity.
Defined.

(** C2, as stated, fails: a number out of range is a parse failure, and
    the value written is the infinity the parser returns, not zero. *)
Lemma collectMetric_scalar_out_of_range :
  let o := collectMetric exampleConfig strconv.ParseFloat (serve [["1e999"]])
             "rt:activeUsers" "" (startState exampleConfig) in
  failed (strconv.ParseFloat "1e999") = true
  /\ o = Returned tt (stateOf o)
  /\ scalarOf (stateOf o) "rt:activeUsers" = Some (Inf false)
  /\ scalarOf (stateOf o) "rt:activeUsers" <> Some zero64.
Proof.
  cbv zeta. split; [vm_compute; reflexivity|].
  split; [vm_compute; reflexivity|].
  assert (H : scalarOf (stateOf (collectMetric exampleConfig strconv.ParseFloat
                                   (serve [["1e999"]]) "rt:activeUsers" ""
                                   (startState exampleConfig))) "rt:activeUsers"
              = Some (Inf false)) by (vm_compute; reflexivity).
  split; [exact H|]. rewrite H. discriminate.
Qed.

Lemma registerMetricVec_idempotent_witness :
  (exists a st1 st2,
     registerMetricVec "rt:_mobile" initial = Returned tt st1
     /\ registerMetricVec "rt:_mobile" st1 = Returned tt st2
     /\ promGaugeVec st1 !! "rt:_mobile" = Some a
     /\ promGaugeVec st2 !! "rt:_mobile" = Some a
     /\ registry st2 = registry st1)
  /\ registerMetricVec "rt:_mobile" (startState clashConfig)
     = Panicked (RegistrationError prometheus.InconsistentDescriptor)
                (withNewVec "rt:_mobile" (startState clashConfig)).
Proof.
  split.
  - destruct (proj1 (registerMetricVec_idempotent "rt:_mobile" initial)
                (stateOf (registerMetricVec "rt:_mobile" initial)))
      as (a & st2 & H1 & _ & H2 & H3 & H4 & _).
    + vm_compute. reflexivity.
    + exists a, (stateOf (registerMetricVec "rt:_mobile" initial)), st2.
      split; [vm_compute; reflexivity|]. auto.
  - apply (proj2 (registerMetricVec_idempotent "rt:_mobile" (startState clashConfig))).
    + vm_compute. reflexivity.
    + discriminate.
Defined.

Lemma collectMetric_request_error_witness :
  collectMetric exampleConfig strconv.ParseFloat (refuse "quota") "rt:pageviews" ""
    (startState exampleConfig)
  = Panicked (RequestError "quota")
      (logRequest (requestFor exampleConfig "rt:pageviews" "") (startState exampleConfig))
  /\ avoids (fun p => exists err, p = RequestError err)
       (collectMetric exampleConfig strconv.ParseFloat (serve exampleRows) "rt:pageviews" ""
          (startState exampleConfig)).
Proof.
  split.
  - apply (proj1 (collectMetric_request_error exampleConfig strconv.ParseFloat
                    (refuse "quota") "rt:pageviews" "" (startState exampleConfig))
                 "quota" eq_refl).
  - apply (proj2 (collectMetric_request_error exampleConfig strconv.ParseFloat
                    (serve exampleRows) "rt:pageviews" "" (startState exampleConfig))
                 (analytics.mkRealtimeData exampleRows) eq_refl).
Defined.




Lemma collectMetric_index_panic_witness :
  avoids (fun p => p = IndexOutOfRange)
    (collectMetric exampleConfig strconv.ParseFloat (serve exampleRows) "rt:pageviews" ""
       (startState exampleConfig))
  /\ exists st',
       collectMetric exampleConfig strconv.ParseFloat (serve [["US"; "mobile"]; []])
         "rt:pageviews" "" (startState exampleConfig)
       = Panicked IndexOutOfRange st'.
Proof.
  split.
  - apply (proj1 (collectMetric_index_panic exampleConfig strconv.ParseFloat
                    (serve exampleRows) "rt:pageviews" "" (startState exampleConfig)
                    (analytics.mkRealtimeData exampleRows) eq_refl)).
    reflexivity.
  - apply (proj2 (proj2 (collectMetric_index_panic exampleConfig strconv.ParseFloat
                    (serve [["US"; "mobile"]; []]) "rt:pageviews" ""
                    (startState exampleConfig)
                    (analytics.mkRealtimeData [["US"; "mobile"]; []]) eq_refl)));
      [reflexivity|exact exampleConfig_wf|reflexivity].
Defined.

(** * Further properties of the code *)

Local Open Scope list_scope.

(** ** Nothing exported is withdrawn *)

Lemma persists_refl (st : State) : persists st st.
Proof. repeat split; try reflexivity. intros a c H. eauto. Qed.

Lemma persists_trans (st1 st2 st3 : State) :
  persists st1 st2 -> persists st2 st3 -> persists st1 st3.
Proof.
  intros (Hc & Hd & Hg & Hr & Hh) (Hc' & Hd' & Hg' & Hr' & Hh').
  split; [etransitivity; eassumption|]. split; [etransitivity; eassumption|].
  split; [congruence|]. split; [congruence|].
  intros a c H. destruct (Hh _ _ H) as (c1 & H1 & E1 & K1).
  destruct (Hh' _ _ H1) as (c2 & H2 & E2 & K2). exists c2. split; [exact H2|]. split; congruence.
Qed.

Lemma keeps_bind {A B : Type} (m : M A) (f : A -> M B) :
  keeps m -> (forall a, keeps (f a)) -> keeps (bind m f).
Proof.
  intros Hm Hf st. unfold bind. specialize (Hm st).
  destruct (m st) as [a st1|p st1]; cbn in *; [|exact Hm].
  exact (persists_trans _ _ _ Hm (Hf a st1)).
Qed.

Lemma keeps_ret {A : Type} (a : A) : keeps (ret a).
Proof. intros st. apply persists_refl. Qed.

Lemma keeps_throw {A : Type} (p : panic) : keeps (@throw A p).
Proof. intros st. apply persists_refl. Qed.

Lemma keeps_gets {A : Type} (f : State -> A) : keeps (gets f).
Proof. intros st. apply persists_refl. Qed.

Lemma keeps_index {A : Type} (l : list A) (i : nat) : keeps (index l i).
Proof. unfold index. destruct (l !! i); [apply keeps_ret|apply keeps_throw]. Qed.

Lemma keeps_lift {A : Type} (r : result A) : keeps (lift r).
Proof. destruct r; [apply keeps_ret|apply keeps_throw]. Qed.

Lemma keeps_forEach {A : Type} (body : A -> M unit) (l : list A) :
  (forall x, keeps (body x)) -> keeps (forEach l body).
Proof.
  intros H. induction l as [|x l IH]; cbn [forEach]; [apply keeps_ret|].
  apply keeps_bind; [apply H|intros _; exact IH].
Qed.

Lemma persists_alloc (st : State) (c : prometheus.Collector) :
  persists st (set_heap (<[newAddr st := c]> (heap st)) st).
Proof.
  repeat split; try reflexivity. cbn. intros a c0 H.
  exists c0. rewrite lookup_insert_ne by exact (lookup_old_ne _ _ _ H). auto.
Qed.

Lemma keeps_alloc (c : prometheus.Collector) : keeps (alloc c).
Proof. intros st. apply persists_alloc. Qed.

Lemma keeps_set_promGaugeVec (f : State -> gmap string nat) :
  keeps (modify (fun st => set_promGaugeVec (f st) st)).
Proof. intros st. repeat split; try reflexivity. cbn. eauto. Qed.

Lemma persists_register (st : State) (a : nat) (d : prometheus.Desc) (r : prometheus.Registry) :
  prometheus.register (registry st) a d = inl r -> persists st (set_registry r st).
Proof.
  intros (_ & Hnone & -> & Hcons)%register_inl.
  split; [apply insert_subseteq, Hnone|]. split.
  - cbn. destruct (prometheus.dimHashesByName (registry st) !! prometheus.fqName d) as [h|] eqn:E.
    + rewrite <- (Hcons h eq_refl), insert_id by exact E. reflexivity.
    + apply insert_subseteq, E.
  - repeat split; try reflexivity. cbn. eauto.
Qed.

Lemma keeps_Register (c : option nat) : keeps (Register c).
Proof.
  intros st. unfold Register. destruct c as [a|]; [|apply persists_refl].
  destruct (heap st !! a) as [obj|]; [|apply persists_refl].
  destruct (prometheus.register _ _ _) as [r|e] eqn:E; [|apply persists_refl].
  exact (persists_register _ _ _ _ E).
Qed.

Lemma persists_update (st : State) (a : nat) (c c' : prometheus.Collector) :
  heap st !! a = Some c ->
  prometheus.Describe c' = prometheus.Describe c ->
  prometheus.isGaugeVec c' = prometheus.isGaugeVec c ->
  persists st (set_heap (<[a := c']> (heap st)) st).
Proof.
  intros Ha Hd Hk. repeat split; try reflexivity. cbn. intros a0 c0 H0.
  destruct (decide (a = a0)) as [<-|Hn].
  - exists c'. rewrite lookup_insert_eq. assert (c0 = c) as -> by congruence. auto.
  - exists c0. rewrite lookup_insert_ne by exact Hn. auto.
Qed.

Lemma keeps_Gauge_Set (g : option nat) (val : float64) : keeps (Gauge_Set g val).
Proof.
  intros st. unfold Gauge_Set. destruct g as [a|]; [|apply persists_refl].
  destruct (heap st !! a) as [[d w|d ch]|] eqn:E; try apply persists_refl.
  apply (persists_update _ _ _ _ E); reflexivity.
Qed.

Lemma keeps_vec_set (v : option nat) (lvs : list string) (val : float64) :
  keeps (GaugeVec_WithLabelValues_Set v lvs val).
Proof.
  intros st. unfold GaugeVec_WithLabelValues_Set. destruct v as [a|]; [|apply persists_refl].
  destruct (heap st !! a) as [[d w|d ch]|] eqn:E; try apply persists_refl.
  destruct (negb _); [apply persists_refl|]. destruct (negb _); [apply persists_refl|].
  apply (persists_update _ _ _ _ E); reflexivity.
Qed.

Lemma keeps_registerMetricVec (metric : string) : keeps (registerMetricVec metric).
Proof.
  unfold registerMetricVec.
  apply keeps_bind; [apply keeps_alloc|]. intros v.
  apply keeps_bind; [apply keeps_set_promGaugeVec|]. intros _.
  apply keeps_bind; [apply keeps_gets|]. intros c.
  apply keeps_bind; [apply keeps_Register|]. intros [[existing| |]|];
    try apply keeps_throw; [|apply keeps_ret].
  apply keeps_bind; [apply keeps_gets|]. intros [[d w|d ch]|]; try apply keeps_throw.
  apply keeps_set_promGaugeVec.
Qed.

Lemma keeps_collectRow (ParseFloat : string -> parsed) (row : list string) :
  keeps (collectRow ParseFloat row).
Proof.
  unfold collectRow. apply keeps_bind; [apply keeps_index|]. intros category.
  destruct (negb _); [|apply keeps_ret].
  apply keeps_bind; [apply keeps_index|]. intros action.
  apply keeps_bind; [apply keeps_lift|]. intros label.
  apply keeps_bind; [apply keeps_registerMetricVec|]. intros _.
  apply keeps_bind; [apply keeps_index|]. intros cell.
  apply keeps_bind; [apply keeps_gets|]. intros v. apply keeps_vec_set.
Qed.

Lemma keeps_interpret (ParseFloat : string -> parsed) (metric : string)
    (m : analytics.RealtimeData) :
  keeps (interpret ParseFloat metric m).
Proof.
  unfold interpret. destruct (_ =? _)%nat.
  - apply keeps_bind; [apply keeps_index|]. intros row.
    apply keeps_bind; [apply keeps_index|]. intros cell.
    apply keeps_bind; [apply keeps_gets|]. intros g. apply keeps_Gauge_Set.
  - apply keeps_forEach. intros row. apply keeps_collectRow.
Qed.

Lemma persists_endures (st st' : State) : persists st st' -> endures st st'.
Proof. intros (? & ? & ? & ? & ?). repeat split; assumption. Qed.

Lemma endures_refl (st : State) : endures st st.
Proof. apply persists_endures, persists_refl. Qed.

Lemma endures_trans (st1 st2 st3 : State) :
  endures st1 st2 -> endures st2 st3 -> endures st1 st3.
Proof.
  intros (Hc & Hd & Hg & Hh) (Hc' & Hd' & Hg' & Hh').
  split; [etransitivity; eassumption|]. split; [etransitivity; eassumption|].
  split; [congruence|].
  intros a c H. destruct (Hh _ _ H) as (c1 & H1 & E1 & K1).
  destruct (Hh' _ _ H1) as (c2 & H2 & E2 & K2). exists c2. split; [exact H2|]. split; congruence.
Qed.

Lemma endures_logRequest (getc : analytics.DataRealtimeGetCall) (st : State) :
  endures st (logRequest getc st).
Proof. repeat split; try reflexivity. cbn. eauto. Qed.

Lemma length_zero_empty (s : string) : (0 <? String.length s)%nat = false <-> s = "".
Proof. destruct s; cbn; split; congruence. Qed.

Lemma requestFor_eq (config : conf) (metric gaDimensions : string) :
  requestFor config metric gaDimensions =
  analytics.mkGetCall (ViewID config) metric
    (if decide (gaDimensions = "") then None else Some gaDimensions).
Proof.
  unfold requestFor. destruct (decide (gaDimensions = "")) as [->|Hne]; [reflexivity|].
  destruct (0 <? String.length gaDimensions)%nat eqn:E; [reflexivity|].
  apply length_zero_empty in E. contradiction.
Qed.

Lemma collectMetric_state (config : conf) (ParseFloat : string -> parsed)
    (rts : analytics.DataRealtimeService) (metric gaDimensions : string) (st : State) :
  persists (logRequest (requestFor config metric gaDimensions) st)
           (stateOf (collectMetric config ParseFloat rts metric gaDimensions st)).
Proof.
  rewrite collectMetric_unfold. destruct (rts _) as [m|err]; [|apply persists_refl].
  apply keeps_interpret.
Qed.

(** X1.  Every call of [collectMetric] sends exactly one request, whether
    it returns or panics afterwards: for the configured view and the
    metric, with the dimensions when the string given is not empty and
    without them when it is.  A worker passes the string [getDimensions]
    returns. *)
Theorem collectMetric_sends_one_call (config : conf) (ParseFloat : string -> parsed)
    (rts : analytics.DataRealtimeService) (metric gaDimensions : string) (st : State) :
  requests (stateOf (collectMetric config ParseFloat rts metric gaDimensions st))
  = analytics.mkGetCall (ViewID config) metric
      (if decide (gaDimensions = "") then None else Some gaDimensions)
    :: requests st
  /\ requests (stateOf (worker config ParseFloat rts metric st))
     = analytics.mkGetCall (ViewID config) metric
         (if decide (getDimensions config metric = "") then None
          else Some (getDimensions config metric))
       :: requests st.
Proof.
  assert (H : forall dims,
    requests (stateOf (collectMetric config ParseFloat rts metric dims st))
    = analytics.mkGetCall (ViewID config) metric (if decide (dims = "") then None else Some dims)
      :: requests st).
  { intros dims. destruct (collectMetric_state config ParseFloat rts metric dims st)
      as (_ & _ & _ & Hreq & _).
    rewrite Hreq. cbn. rewrite requestFor_eq. reflexivity. }
  split; [apply H|]. unfold worker. apply H.
Qed.

(** X2.  Whatever a call of [collectMetric] does and however it ends, it
    withdraws nothing: a collector exported under a descriptor is still
    the one exported under it, every object is still there with the
    descriptor and the kind it had, and [promGauge] is not touched. *)
Theorem collectMetric_withdraws_nothing (config : conf) (ParseFloat : string -> parsed)
    (rts : analytics.DataRealtimeService) (metric gaDimensions : string) (st : State) :
  let st' := stateOf (collectMetric config ParseFloat rts metric gaDimensions st) in
  (forall d a, exportedAs st d = Some a -> exportedAs st' d = Some a)
  /\ (forall a c, heap st !! a = Some c ->
        exists c', heap st' !! a = Some c'
                   /\ prometheus.Describe c' = prometheus.Describe c
                   /\ prometheus.isGaugeVec c' = prometheus.isGaugeVec c)
  /\ promGauge st' = promGauge st.
Proof.
  cbv zeta.
  destruct (collectMetric_state config ParseFloat rts metric gaDimensions st)
    as (Hc & _ & Hg & _ & Hh).
  split; [|split; [exact Hh|exact Hg]].
  intros d a H. unfold exportedAs in *. exact (lookup_weaken _ _ _ _ H Hc).
Qed.

(** ** [init] under any configuration *)

Lemma initMetric_effect (m : string) (st : State) :
  exists st',
    initMetric m st = Returned tt st'
    /\ promGauge st' = <[m := newAddr st]> (promGauge st)
    /\ heap st' = <[newAddr st := prometheus.Gauge (scalarDesc m) zero64]> (heap st)
    /\ promGaugeVec st' = promGaugeVec st
    /\ requests st' = requests st
    /\ match prometheus.register (registry st) (newAddr st) (scalarDesc m) with
       | inl r => registry st' = r
       | inr _ => registry st' = registry st
       end.
Proof.
  rewrite initMetric_unfold.
  destruct (prometheus.register (registry st) (newAddr st) (scalarDesc m));
    eexists; (split; [reflexivity|]); repeat split.
Qed.

Lemma init_loop_binds (ms : list string) :
  forall st, gaugesBound st ->
  exists st',
    forEach ms initMetric st = Returned tt st'
    /\ gaugesBound st'
    /\ (forall m, is_Some (promGauge st' !! m) <-> m ∈ ms \/ is_Some (promGauge st !! m))
    /\ promGaugeVec st' = promGaugeVec st
    /\ requests st' = requests st.
Proof.
  induction ms as [|m ms IH]; intros st Hb.
  - exists st. split; [reflexivity|]. split; [exact Hb|]. split; [|auto].
    intros m. split; [auto|]. intros [H|H]; [inversion H|exact H].
  - destruct (initMetric_effect m st) as (st1 & Hrun1 & Hpg1 & Hheap1 & Hvec1 & Hreq1 & _).
    assert (Hb1 : gaugesBound st1).
    { intros m0 a0. rewrite Hpg1, Hheap1. destruct (decide (m = m0)) as [<-|Hn].
      - rewrite lookup_insert_eq. intros [= <-]. apply lookup_insert_eq.
      - rewrite lookup_insert_ne by exact Hn. intros H0. pose proof (Hb _ _ H0) as Hobj.
        rewrite lookup_insert_ne by exact (lookup_old_ne _ _ _ Hobj). exact Hobj. }
    destruct (IH st1 Hb1) as (st' & Hrun & Hb' & Hdom & Hvec & Hreq).
    exists st'. cbn [forEach]. unfold bind at 1. rewrite Hrun1.
    split; [exact Hrun|]. split; [exact Hb'|]. split; [|split; congruence].
    intros m0. rewrite Hdom, Hpg1, elem_of_cons.
    destruct (decide (m = m0)) as [<-|Hn].
    + rewrite lookup_insert_eq. split; [auto|]. intros _. right. eauto.
    + rewrite lookup_insert_ne by exact Hn. split; [tauto|].
      intros [[?|?]|?]; [congruence|auto|auto].
Qed.

(** X3.  [init] returns for every configuration, also for metric names
    the registry refuses, whose errors it drops.  It binds in [promGauge]
    exactly the configured metrics, each to a gauge with the descriptor of
    the metric and the value zero; it creates no vector and sends no
    call. *)
Theorem init_binds_every_metric (config : conf) :
  exists st,
    init config initial = Returned tt st
    /\ (forall m, is_Some (promGauge st !! m) <-> m ∈ Metrics config)
    /\ (forall m a, promGauge st !! m = Some a ->
          heap st !! a = Some (prometheus.Gauge (scalarDesc m) zero64))
    /\ (forall m, m ∈ Metrics config -> scalarOf st m = Some zero64)
    /\ promGaugeVec st = ∅
    /\ requests st = [].
Proof.
  destruct (init_loop_binds (Metrics config) initial) as (st & Hrun & Hb & Hdom & Hvec & Hreq).
  { intros m a H. cbn in H. rewrite lookup_empty in H. discriminate. }
  assert (Hd : forall m, is_Some (promGauge st !! m) <-> m ∈ Metrics config).
  { intros m. rewrite Hdom. cbn. rewrite lookup_empty. split; [|auto].
    intros [H|[x H]]; [exact H|discriminate]. }
  exists st. split; [exact Hrun|]. split; [exact Hd|]. split; [exact Hb|].
  split; [|auto].
  intros m [a Ha]%Hd. unfold scalarOf. rewrite Ha, (Hb _ _ Ha). reflexivity.
Qed.

Lemma init_returns (config : conf) : init config initial = Returned tt (startState config).
Proof.
  destruct (init_loop_binds (Metrics config) initial) as (st & Hrun & _).
  { intros m a H. cbn in H. rewrite lookup_empty in H. discriminate. }
  unfold startState, init. rewrite Hrun. reflexivity.
Qed.

(** Every state of a run keeps what [init] has set up. *)
Lemma reachable_endures (config : conf) (ParseFloat : string -> parsed) (st : State) :
  reachable config ParseFloat st -> endures (startState config) st.
Proof.
  intros Hreach. induction Hreach as [st Hinit|st st' rts metric _ IH Hrun].
  - rewrite init_returns in Hinit. injection Hinit as <-. apply endures_refl.
  - apply (endures_trans _ _ _ IH). unfold worker in Hrun.
    pose proof (collectMetric_state config ParseFloat rts metric
                  (getDimensions config metric) st) as H.
    rewrite Hrun in H. cbn in H.
    exact (endures_trans _ _ _ (endures_logRequest _ st) (persists_endures _ _ H)).
Qed.

(** ** When [init] exports every metric *)

Lemma replace_from_forallb (p : ascii -> bool) (old new : string) :
  string_forallb p new = true ->
  forall s skip n, string_forallb p s = true ->
  string_forallb p (strings.replace_from skip s old new n) = true.
Proof.
  intros Hnew. induction s as [|c s IH]; intros skip n Hs; [reflexivity|].
  cbn [string_forallb] in Hs. apply andb_true_iff in Hs as [Hc Hs].
  cbn [strings.replace_from]. destruct skip as [|k]; [|apply IH, Hs].
  destruct (negb (n =? 0)%Z && strings.HasPrefix (String c s) old).
  - rewrite string_forallb_app, Hnew. apply IH, Hs.
  - cbn [string_forallb]. rewrite Hc. apply IH, Hs.
Qed.

Lemma scalarName_valid (m : string) :
  string_forallb prometheus.name_byte m = true ->
  string_forallb prometheus.name_byte (scalarName m) = true.
Proof.
  intros Hm. unfold scalarName, scalarDesc, gaugeOpts. cbn [prometheus.fqName prometheus.Name].
  rewrite string_forallb_app. apply andb_true_iff. split; [reflexivity|].
  unfold strings.Replace. apply replace_from_forallb; [reflexivity|exact Hm].
Qed.

Lemma name_byte_ascii (c : ascii) :
  prometheus.name_byte c = true -> utf8.between 0 127 c = true.
Proof.
  unfold prometheus.name_byte.
  intros [[H|H]%orb_true_iff|H]%orb_true_iff.
  - apply alnum_ascii, H.
  - apply Ascii.eqb_eq in H as ->. reflexivity.
  - apply Ascii.eqb_eq in H as ->. reflexivity.
Qed.

Lemma constNames_scalarDesc (m : string) : prometheus.constNames (scalarDesc m) = ["job"].
Proof.
  unfold prometheus.constNames, scalarDesc, gaugeOpts. simpl.
  rewrite map_to_list_singleton. reflexivity.
Qed.

Lemma constValues_scalarDesc (m : string) :
  prometheus.constValues (scalarDesc m) = ["googleAnalytics"].
Proof.
  unfold prometheus.constValues, scalarDesc, gaugeOpts. simpl.
  rewrite map_to_list_singleton. reflexivity.
Qed.

Lemma scalarName_starts (m : string) : exists rest, scalarName m = String "g" rest.
Proof. unfold scalarName, scalarDesc, gaugeOpts. cbn. eauto. Qed.

(** The descriptor of the scalar series of a metric is valid when the
    metric name is made of letters, digits, underscores and colons. *)
Lemma descErr_scalarDesc (m : string) :
  string_forallb prometheus.name_byte m = true -> prometheus.descErr (scalarDesc m) = false.
Proof.
  intros Hm. pose proof (scalarName_valid m Hm) as Hn.
  unfold prometheus.descErr. rewrite constNames_scalarDesc, constValues_scalarDesc.
  change (prometheus.fqName (scalarDesc m)) with (scalarName m).
  assert (Hv : prometheus.IsValidMetricName (scalarName m) = true).
  { destruct (scalarName_starts m) as [rest E]. rewrite E in *.
    cbn [prometheus.IsValidMetricName]. rewrite Hn. reflexivity. }
  assert (Hu : utf8.ValidString (scalarName m) = true).
  { apply ascii_valid. exact (string_forallb_impl _ _ _ name_byte_ascii Hn). }
  rewrite Hv. cbn [forallb]. rewrite Hu. reflexivity.
Qed.

Lemma init_loop_exports (ms : list string) :
  forall done st,
  NoDup (scalarName <$> (done ++ ms)) ->
  forallb (string_forallb prometheus.name_byte) ms = true ->
  exportsAll st done ->
  exists st', forEach ms initMetric st = Returned tt st' /\ exportsAll st' (done ++ ms).
Proof.
  induction ms as [|m ms IH]; intros done st Hnd Hvalid Hinv.
  - exists st. rewrite app_nil_r. auto.
  - cbn [forallb] in Hvalid. apply andb_true_iff in Hvalid as [Hm Hvalid].
    destruct Hinv as (I1 & I2 & I3).
    assert (Hfresh : scalarName m ∉ scalarName <$> done).
    { rewrite fmap_app in Hnd. apply NoDup_app in Hnd as (_ & Hdis & _).
      intros Hin. apply (Hdis _ Hin). cbn. left. }
    assert (Hd : prometheus.dimHashesByName (registry st) !! prometheus.fqName (scalarDesc m)
                 = None).
    { destruct (prometheus.dimHashesByName (registry st) !! prometheus.fqName (scalarDesc m))
        eqn:E; [|reflexivity].
      exfalso. apply Hfresh, I2. unfold scalarName. rewrite E. eauto. }
    assert (Hc : prometheus.collectorsByID (registry st) !! prometheus.descID (scalarDesc m)
                 = None).
    { destruct (prometheus.collectorsByID (registry st) !! prometheus.descID (scalarDesc m))
        eqn:E; [|reflexivity].
      exfalso. apply Hfresh.
      apply (I3 (prometheus.descID (scalarDesc m))). rewrite E. eauto. }
    destruct (initMetric_effect m st) as (st1 & Hrun1 & Hpg1 & Hheap1 & _ & _ & Hreg1).
    rewrite (register_new _ _ _ (descErr_scalarDesc m Hm)) in Hreg1
      by (try exact Hc; intros h; rewrite Hd; discriminate).
    assert (Hinv1 : exportsAll st1 (done ++ [m])).
    { split; [|split].
      - intros m0 [Hin|Hin]%elem_of_app; [|apply list_elem_of_singleton in Hin as ->].
        + destruct (I1 _ Hin) as (a & Ha & He & Hh).
          assert (Hne : scalarName m <> scalarName m0).
          { intros E. apply Hfresh. rewrite E. apply list_elem_of_fmap_2, Hin. }
          exists a. rewrite Hpg1, Hheap1. unfold exportedAs. rewrite Hreg1. cbn.
          rewrite lookup_insert_ne by congruence.
          rewrite lookup_insert_ne by (intros E; apply Hne; exact (f_equal fst E)).
          rewrite lookup_insert_ne by exact (lookup_old_ne _ _ _ Hh). auto.
        + exists (newAddr st). rewrite Hpg1, Hheap1. unfold exportedAs. rewrite Hreg1. cbn.
          rewrite !lookup_insert_eq. auto.
      - intros n. rewrite Hreg1. cbn. rewrite fmap_app, elem_of_app.
        destruct (decide (prometheus.fqName (scalarDesc m) = n)) as [<-|Hn].
        + intros _. right. left.
        + rewrite lookup_insert_ne by exact Hn. auto.
      - intros id. rewrite Hreg1. cbn. rewrite fmap_app, elem_of_app.
        destruct (decide (prometheus.descID (scalarDesc m) = id)) as [<-|Hn].
        + intros _. right. left.
        + rewrite lookup_insert_ne by exact Hn. auto. }
    destruct (IH (done ++ [m]) st1) as (st' & Hrun & Hinv'); auto.
    { rewrite <- app_assoc. exact Hnd. }
    exists st'. cbn [forEach]. unfold bind at 1. rewrite Hrun1.
    split; [exact Hrun|]. rewrite <- app_assoc in Hinv'. exact Hinv'.
Qed.

Lemma exportsAll_initial : exportsAll initial [].
Proof.
  split; [|split].
  - intros m H. inversion H.
  - intros n [x H]. cbn in H. rewrite lookup_empty in H. discriminate.
  - intros id [x H]. cbn in H. rewrite lookup_empty in H. discriminate.
Qed.

Lemma startState_exports (config : conf) :
  NoDup (scalarName <$> Metrics config) ->
  forallb (string_forallb prometheus.name_byte) (Metrics config) = true ->
  exportsAll (startState config) (Metrics config).
Proof.
  intros Hnd Hvalid.
  destruct (init_loop_exports (Metrics config) [] initial Hnd Hvalid exportsAll_initial)
    as (st & Hrun & Hinv).
  unfold startState, init. rewrite Hrun. exact Hinv.
Qed.

(** X4.  When the metric names of the configuration are made of letters,
    digits, underscores and colons and give different series names, [init]
    exports every one of them: the gauge bound to a metric in [promGauge]
    is the collector exported under the descriptor of the metric, and a
    scrape reads zero for it. *)
Theorem init_exports_every_metric (config : conf) :
  NoDup (scalarName <$> Metrics config) ->
  forallb (string_forallb prometheus.name_byte) (Metrics config) = true ->
  forall m, m ∈ Metrics config ->
    exists a, promGauge (startState config) !! m = Some a
              /\ exportedAs (startState config) (scalarDesc m) = Some a
              /\ exportedScalar (startState config) m = Some zero64.
Proof.
  intros Hnd Hvalid m Hin.
  destruct (startState_exports config Hnd Hvalid) as (I1 & _).
  destruct (I1 m Hin) as (a & Ha & He & Hh).
  exists a. split; [exact Ha|]. split; [exact He|].
  unfold exportedScalar. rewrite He, Hh. reflexivity.
Qed.

(** ** What a scrape reads for a scalar *)

Lemma single_row_run (config : conf) (ParseFloat : string -> parsed)
    (rts : analytics.DataRealtimeService) (metric gaDimensions : string) (st : State)
    (m : analytics.RealtimeData) (cell : string) (rest : list string)
    (a : nat) (d : prometheus.Desc) (w : float64) :
  promGauge st !! metric = Some a ->
  heap st !! a = Some (prometheus.Gauge d w) ->
  rts (requestFor config metric gaDimensions) = inl m ->
  analytics.Rows m = [cell :: rest] ->
  collectMetric config ParseFloat rts metric gaDimensions st
  = Returned tt
      (set_heap (<[a := prometheus.Gauge d (value_of (ParseFloat cell))]> (heap st))
         (logRequest (requestFor config metric gaDimensions) st)).
Proof.
  intros Hg Hobj Hrts Hrows. rewrite collectMetric_unfold, Hrts.
  unfold interpret. rewrite Hrows. cbn [length Nat.eqb].
  unfold bind, index, gets, Gauge_Set. cbn [lookup list_lookup ret].
  change (promGauge (logRequest (requestFor config metric gaDimensions) st))
    with (promGauge st). rewrite Hg.
  change (heap (logRequest (requestFor config metric gaDimensions) st)) with (heap st).
  rewrite Hobj. reflexivity.
Qed.

(** X5.  Under the conditions of X4 the value a worker writes for a
    one-row result is the value a scrape reads: in every state of a run,
    for a configured metric, the worker returns and the collector exported
    under the descriptor of the metric holds what the parser returns for
    the first cell. *)
Theorem scalar_write_is_exported (config : conf) (ParseFloat : string -> parsed)
    (rts : analytics.DataRealtimeService) (metric gaDimensions : string) (st : State)
    (m : analytics.RealtimeData) (cell : string) (rest : list string) :
  NoDup (scalarName <$> Metrics config) ->
  forallb (string_forallb prometheus.name_byte) (Metrics config) = true ->
  reachable config ParseFloat st ->
  metric ∈ Metrics config ->
  rts (requestFor config metric gaDimensions) = inl m ->
  analytics.Rows m = [cell :: rest] ->
  exists st',
    collectMetric config ParseFloat rts metric gaDimensions st = Returned tt st'
    /\ exportedScalar st' metric = Some (value_of (ParseFloat cell))
    /\ scalarOf st' metric = Some (value_of (ParseFloat cell)).
Proof.
  intros Hnd Hvalid Hreach Hin Hrts Hrows.
  destruct (startState_exports config Hnd Hvalid) as (I1 & _).
  destruct (I1 metric Hin) as (a & Ha & He & Hh).
  destruct (reachable_endures config ParseFloat st Hreach) as (Hc & _ & Hg & Hheap).
  destruct (Hheap _ _ Hh) as (c' & Hc' & Hd & Hk).
  destruct (proj1 (same_shape _ _ Hd Hk) _ _ eq_refl) as [w ->].
  rewrite <- Hg in Ha.
  eexists. split; [exact (single_row_run config ParseFloat rts metric gaDimensions st m
                            cell rest a _ w Ha Hc' Hrts Hrows)|].
  unfold exportedScalar, scalarOf, exportedAs. cbn.
  rewrite (lookup_weaken _ _ _ _ He Hc), Ha, lookup_insert_eq. auto.
Qed.

(** X6.  A metric that is already exported when [init] comes to it, as
    one listed twice is, gets a new gauge that [promGauge] is bound to
    while the registry keeps the old one, the error of [Register] being
    dropped.  From then on what a worker writes for the metric goes to the
    new gauge and a scrape keeps reading the value of the old one. *)
Theorem initMetric_again_not_exported (metric : string) (st : State)
    (a0 : nat) (c0 : prometheus.Collector) :
  exportedAs st (scalarDesc metric) = Some a0 ->
  heap st !! a0 = Some c0 ->
  exists st1,
    initMetric metric st = Returned tt st1
    /\ registry st1 = registry st
    /\ promGauge st1 !! metric = Some (newAddr st)
    /\ newAddr st <> a0
    /\ forall (config : conf) (ParseFloat : string -> parsed)
              (rts : analytics.DataRealtimeService) (gaDimensions : string)
              (m : analytics.RealtimeData) (cell : string) (rest : list string),
         rts (requestFor config metric gaDimensions) = inl m ->
         analytics.Rows m = [cell :: rest] ->
         exists st2,
           collectMetric config ParseFloat rts metric gaDimensions st1 = Returned tt st2
           /\ scalarOf st2 metric = Some (value_of (ParseFloat cell))
           /\ exportedAs st2 (scalarDesc metric) = Some a0
           /\ heap st2 !! a0 = Some c0
           /\ exportedScalar st2 metric = exportedScalar st metric.
Proof.
  intros Hexp Hobj.
  destruct (initMetric_effect metric st) as (st1 & Hrun1 & Hpg1 & Hheap1 & _ & _ & Hreg1).
  assert (Hreg : registry st1 = registry st).
  { destruct (prometheus.register (registry st) (newAddr st) (scalarDesc metric)) as [r|e] eqn:E;
      [|exact Hreg1].
    apply register_inl in E as (_ & Hnone & _). unfold exportedAs in Hexp. congruence. }
  assert (Hne : newAddr st <> a0) by exact (lookup_old_ne _ _ _ Hobj).
  assert (Hg1 : promGauge st1 !! metric = Some (newAddr st))
    by (rewrite Hpg1; apply lookup_insert_eq).
  assert (Hnew : heap st1 !! newAddr st = Some (prometheus.Gauge (scalarDesc metric) zero64))
    by (rewrite Hheap1; apply lookup_insert_eq).
  assert (Hold : heap st1 !! a0 = Some c0)
    by (rewrite Hheap1, lookup_insert_ne by exact Hne; exact Hobj).
  exists st1. split; [exact Hrun1|]. split; [exact Hreg|]. split; [exact Hg1|].
  split; [exact Hne|].
  intros config ParseFloat rts gaDimensions m cell rest Hrts Hrows.
  eexists. split; [exact (single_row_run config ParseFloat rts metric gaDimensions st1 m
                            cell rest _ _ _ Hg1 Hnew Hrts Hrows)|].
  assert (He2 : prometheus.collectorsByID (registry st1) !! prometheus.descID (scalarDesc metric)
                = Some a0) by (rewrite Hreg; exact Hexp).
  unfold scalarOf, exportedScalar, exportedAs in *. cbn.
  rewrite Hg1, lookup_insert_eq, He2, Hexp, lookup_insert_ne, Hold, Hobj by exact Hne.
  auto.
Qed.

(** ** A scalar under the name of a vector *)

Lemma register_inr_taken (r : prometheus.Registry) (c : nat) (d : prometheus.Desc)
    (e : prometheus.RegisterError) :
  prometheus.register r c d = inr e -> prometheus.descErr d = false ->
  is_Some (prometheus.dimHashesByName r !! prometheus.fqName d)
  \/ is_Some (prometheus.collectorsByID r !! prometheus.descID d).
Proof.
  unfold prometheus.register. intros H Hd. rewrite Hd in H.
  destruct (prometheus.dimHashesByName r !! prometheus.fqName d) as [h|]; [left; eauto|].
  cbn in H. destruct (prometheus.collectorsByID r !! prometheus.descID d); [right; eauto|].
  discriminate.
Qed.

Lemma register_inconsistent (r : prometheus.Registry) (c : nat) (d : prometheus.Desc)
    (h : string * gset string * gset string) :
  prometheus.descErr d = false ->
  prometheus.dimHashesByName r !! prometheus.fqName d = Some h ->
  h <> prometheus.dimHash d ->
  prometheus.register r c d = inr prometheus.InconsistentDescriptor.
Proof.
  intros Hd Hh Hne. unfold prometheus.register.
  rewrite Hd, Hh, bool_decide_eq_false_2 by exact Hne. reflexivity.
Qed.

Lemma init_loop_names (ms : list string) :
  forall done st, scalarsOnly st -> namesTaken st done ->
  exists st',
    forEach ms initMetric st = Returned tt st'
    /\ scalarsOnly st' /\ namesTaken st' (done ++ ms).
Proof.
  induction ms as [|m ms IH]; intros done st HJ HG.
  - exists st. rewrite app_nil_r. auto.
  - destruct (initMetric_effect m st) as (st1 & Hrun1 & _ & _ & _ & _ & Hreg1).
    assert (H1 : scalarsOnly st1 /\ namesTaken st1 (done ++ [m])).
    { destruct HJ as (J1 & J2).
      destruct (prometheus.register (registry st) (newAddr st) (scalarDesc m)) as [r|e] eqn:E.
      - apply register_inl in E as (_ & _ & -> & _).
        unfold scalarsOnly, namesTaken. rewrite Hreg1. split; [split|].
        + intros n h. cbn.
          destruct (decide (prometheus.fqName (scalarDesc m) = n)) as [<-|Hn].
          * rewrite lookup_insert_eq. intros [= <-]. eauto.
          * rewrite lookup_insert_ne by exact Hn. apply J1.
        + intros id. cbn.
          destruct (decide (prometheus.descID (scalarDesc m) = id)) as [<-|Hn].
          * intros _. cbn. rewrite lookup_insert_eq. eauto.
          * rewrite lookup_insert_ne by exact Hn. intros H%J2.
            destruct (decide (prometheus.fqName (scalarDesc m) = id.1)) as [<-|Hn'].
            -- rewrite lookup_insert_eq. eauto.
            -- rewrite lookup_insert_ne by exact Hn'. exact H.
        + intros m0 Hin Hd. unfold scalarName. cbn [prometheus.dimHashesByName].
          destruct (decide (prometheus.fqName (scalarDesc m) = prometheus.fqName (scalarDesc m0)))
            as [<-|Hn].
          * rewrite lookup_insert_eq. eauto.
          * rewrite lookup_insert_ne by exact Hn.
            apply elem_of_app in Hin as [Hin|Hin%list_elem_of_singleton]; [|congruence].
            exact (HG _ Hin Hd).
      - unfold scalarsOnly, namesTaken. rewrite Hreg1. split; [split; assumption|].
        intros m0 [Hin|Hin%list_elem_of_singleton]%elem_of_app Hd; [exact (HG _ Hin Hd)|].
        subst m0. destruct (register_inr_taken _ _ _ _ E Hd) as [H|H]; [exact H|].
        exact (J2 _ H). }
    destruct H1 as (HJ1 & HG1).
    destruct (IH (done ++ [m]) st1 HJ1 HG1) as (st' & Hrun & HJ' & HG').
    exists st'. cbn [forEach]. unfold bind at 1. rewrite Hrun1.
    split; [exact Hrun|]. rewrite <- app_assoc in HG'. auto.
Qed.

Lemma startState_names (config : conf) :
  scalarsOnly (startState config) /\ namesTaken (startState config) (Metrics config).
Proof.
  destruct (init_loop_names (Metrics config) [] initial) as (st & Hrun & H).
  - split.
    + intros n h H. cbn in H. rewrite lookup_empty in H. discriminate.
    + intros id [x H]. cbn in H. rewrite lookup_empty in H. discriminate.
  - intros m H. inversion H.
  - unfold startState, init. rewrite Hrun. exact H.
Qed.

Lemma vecName_facts (L : string) :
  sanitized L ->
  prometheus.IsValidMetricName (prometheus.fqName (vecDesc L)) = true
  /\ utf8.ValidString (prometheus.fqName (vecDesc L)) = true.
Proof.
  intros HL. pose proof (descErr_vecDesc L HL) as H. unfold prometheus.descErr in H.
  rewrite constNames_vecDesc, constValues_vecDesc in H.
  destruct (prometheus.IsValidMetricName (prometheus.fqName (vecDesc L))); [|discriminate].
  split; [reflexivity|]. cbn [forallb] in H.
  destruct (utf8.ValidString (prometheus.fqName (vecDesc L))); [reflexivity|discriminate].
Qed.

Lemma descErr_scalar_named_as_vec (m L : string) :
  sanitized L -> scalarName m = prometheus.fqName (vecDesc L) ->
  prometheus.descErr (scalarDesc m) = false.
Proof.
  intros HL E. destruct (vecName_facts L HL) as (Hv & Hu).
  unfold prometheus.descErr. rewrite constNames_scalarDesc, constValues_scalarDesc.
  change (prometheus.fqName (scalarDesc m)) with (scalarName m).
  rewrite E, Hv. cbn [forallb]. rewrite Hu. reflexivity.
Qed.

Lemma dimHash_scalar_vec (m L : string) :
  prometheus.dimHash (scalarDesc m) <> prometheus.dimHash (vecDesc L).
Proof.
  intros E. apply (f_equal snd) in E. cbn in E.
  assert (H : "category" ∈ (∅ : gset string)) by (rewrite E; set_solver).
  set_solver.
Qed.

(** X7.  When a configured metric has for its scalar series the name the
    vector of a dimension value gets, every row that is kept and carries
    that dimension value makes the worker panic with the registration
    error "inconsistent descriptor", in every state of the run, before the
    value cell is read. *)
Theorem name_clash_panics (config : conf) (ParseFloat : string -> parsed) (st : State)
    (m category action : string) (rest : list string) :
  m ∈ Metrics config ->
  scalarName m = prometheus.fqName (vecDesc (derivedName action)) ->
  reachable config ParseFloat st ->
  strings.Contains category "(not set)" = false ->
  collectRow ParseFloat (category :: action :: rest) st
  = Panicked (RegistrationError prometheus.InconsistentDescriptor)
             (withNewVec (derivedName action) st).
Proof.
  intros Hin Hname Hreach Hcat.
  pose proof (sanitized_derived action) as HL.
  destruct (startState_names config) as ((J1 & _) & HG).
  destruct (HG m Hin (descErr_scalar_named_as_vec m _ HL Hname)) as [h Hh].
  destruct (J1 _ _ Hh) as [m' ->].
  destruct (reachable_endures config ParseFloat st Hreach) as (_ & Hd & _).
  pose proof (lookup_weaken _ _ _ _ Hh Hd) as Hh'. rewrite Hname in Hh'.
  assert (Hans : registerVecAnswer (derivedName action) st
                 = inr prometheus.InconsistentDescriptor).
  { apply (register_inconsistent _ _ _ _ (descErr_vecDesc _ HL) Hh'), dimHash_scalar_vec. }
  unfold collectRow, bind, index. cbn [lookup list_lookup]. unfold ret at 1.
  rewrite Hcat. cbn [negb]. unfold ret at 1.
  rewrite buildMetricLabel_eq. cbn [lift]. unfold ret at 1.
  change (labelPrefix +:+ "_" +:+ string_filter is_alnum action) with (derivedName action).
  rewrite registerMetricVec_unfold, Hans. reflexivity.
Qed.

(** X8.  Under a configuration without such a clash the registration of a
    vector never fails: in every state of the run, for every dimension
    value, [registerMetricVec] on the derived name returns, and the name
    is then bound to the vector exported under its descriptor. *)
Theorem registerMetricVec_never_fails (config : conf) (ParseFloat : string -> parsed)
    (st : State) (action : string) :
  noClash config = true ->
  reachable config ParseFloat st ->
  exists a st' ch,
    registerMetricVec (derivedName action) st = Returned tt st'
    /\ promGaugeVec st' !! derivedName action = Some a
    /\ exportedAs st' (vecDesc (derivedName action)) = Some a
    /\ heap st' !! a = Some (prometheus.GaugeVec (vecDesc (derivedName action)) ch)
    /\ (promGaugeVec st !! derivedName action = Some a
        \/ promGaugeVec st !! derivedName action = None /\ a = newAddr st).
Proof.
  intros Hok Hreach.
  pose proof (reachable_wf config ParseFloat st Hok Hreach) as Hwf.
  destruct (wf_registerMetricVec config st _ Hwf (sanitized_derived action))
    as (a & st' & Hrun & Hwf' & Hpgv & _ & _ & _ & Hcase).
  assert (Ha : promGaugeVec st' !! derivedName action = Some a)
    by (rewrite Hpgv; apply lookup_insert_eq).
  destruct (wf_vec _ _ Hwf' _ _ Ha) as (_ & Hexp & ch & Hobj).
  exists a, st', ch. auto.
Qed.

(** ** The panics of a worker *)

Section Taxonomy.

Variable config : conf.
Variable ParseFloat : string -> parsed.

Lemma collectRow_outcome (row : list string) (st : State) :
  wf config st ->
  (exists st', collectRow ParseFloat row st = Returned tt st' /\ wf config st')
  \/ (exists st', collectRow ParseFloat row st = Panicked IndexOutOfRange st')
  \/ (exists st', collectRow ParseFloat row st
                  = Panicked (LabelValueError prometheus.InvalidUTF8) st').
Proof.
  intros Hwf. destruct (rowShaped row) eqn:Hshape.
  - destruct (rowShaped_cases _ Hshape)
      as [Hskip|(category & action & cell & rest & -> & Hcat)].
    + left. exists st. rewrite (collectRow_skipped ParseFloat _ _ Hskip). auto.
    + destruct (utf8.ValidString category) eqn:Hutf.
      * destruct (collectRow_kept config ParseFloat category action cell rest st Hwf Hcat Hutf)
          as (a & st1 & Hrun1 & Hwf1 & _).
        left. eauto.
      * right. right.
        exact (collectRow_invalid config ParseFloat category action cell rest st Hwf Hcat Hutf).
  - right. left. exact (collectRow_unshaped_index config ParseFloat row st Hwf Hshape).
Qed.

Lemma forEach_outcome (rows : list (list string)) :
  forall st p st', wf config st ->
  forEach rows (collectRow ParseFloat) st = Panicked p st' ->
  p = IndexOutOfRange \/ p = LabelValueError prometheus.InvalidUTF8.
Proof.
  induction rows as [|row rows IH]; intros st p st' Hwf; cbn [forEach]; [discriminate|].
  unfold bind at 1.
  destruct (collectRow_outcome row st Hwf) as [(st1 & -> & Hwf1)|[(st1 & ->)|(st1 & ->)]].
  - apply IH, Hwf1.
  - intros [= <- _]. auto.
  - intros [= <- _]. auto.
Qed.

(** X9.  Under a configuration without name clash a worker for a
    configured metric can panic in three ways only, in every state of the
    run and whatever the data source answers: with the error of the
    request, with an index out of range, or with a label value that is not
    valid UTF-8.  It never panics on a nil pointer, on a type assertion or
    on a registration. *)
Theorem worker_panics_only (rts : analytics.DataRealtimeService)
    (metric gaDimensions : string) (st st' : State) (p : panic) :
  noClash config = true ->
  reachable config ParseFloat st ->
  metric ∈ Metrics config ->
  collectMetric config ParseFloat rts metric gaDimensions st = Panicked p st' ->
  workerPanic p.
Proof.
  intros Hok Hreach Hin. pose proof (reachable_wf config ParseFloat st Hok Hreach) as Hwf.
  destruct (rts (requestFor config metric gaDimensions)) as [m|err] eqn:Hrts.
  - destruct (analytics.Rows m) as [|row [|row' rows]] eqn:Hrows.
    + rewrite collectMetric_unfold, Hrts. unfold interpret. rewrite Hrows. discriminate.
    + destruct row as [|cell rest].
      * rewrite collectMetric_unfold, Hrts. unfold interpret. rewrite Hrows. cbn.
        intros [= <- _]. right. left. reflexivity.
      * destruct (collectMetric_single_row config ParseFloat rts metric gaDimensions st m
                    cell rest Hwf Hin Hrts Hrows) as (st1 & -> & _).
        discriminate.
    + rewrite collectMetric_unfold, Hrts. unfold interpret. rewrite Hrows.
      change (length (row :: row' :: rows) =? 1)%nat with false. cbv iota.
      intros H. right.
      exact (forEach_outcome _ _ _ _ (wf_logRequest config _ st Hwf) H).
  - rewrite collectMetric_unfold, Hrts. intros [= <- _]. left. eauto.
Qed.

(** ** Rows of one result that meet in a cell *)

Lemma specRows_untouched (rows : list (list string)) (L c : string) :
  forallb (fun row => negb (addresses L c row)) rows = true ->
  forall table, specRows ParseFloat rows table L c = table L c.
Proof.
  induction rows as [|row rows IH]; intros H table; [reflexivity|].
  cbn [forallb] in H. apply andb_true_iff in H as [Hrow H].
  cbn [specRows fold_left]. change (fold_left (specRow ParseFloat) rows ?t) with
    (specRows ParseFloat rows t).
  rewrite (IH H). apply negb_true_iff in Hrow.
  destruct row as [|category [|action [|cell rest]]]; try reflexivity.
  cbn [specRow addresses] in *.
  destruct (strings.Contains category "(not set)"); [reflexivity|].
  cbn [negb andb] in Hrow.
  destruct (bool_decide_reflect (L = derivedName action /\ c = category)) as [[-> ->]|];
    [|reflexivity].
  rewrite !bool_decide_eq_true_2 in Hrow by reflexivity. discriminate.
Qed.

Lemma specRows_last (front back : list (list string))
    (category action cell : string) (rest : list string) :
  strings.Contains category "(not set)" = false ->
  forallb (fun row => negb (addresses (derivedName action) category row)) back = true ->
  forall table,
    specRows ParseFloat (front ++ (category :: action :: cell :: rest) :: back) table
      (derivedName action) category
    = Some (value_of (ParseFloat cell)).
Proof.
  intros Hcat Hback table. unfold specRows. rewrite fold_left_app. cbn [fold_left].
  change (fold_left (specRow ParseFloat) back ?t) with (specRows ParseFloat back t).
  rewrite (specRows_untouched back _ _ Hback). cbn [specRow]. rewrite Hcat.
  rewrite bool_decide_eq_true_2 by auto. reflexivity.
Qed.

(** X10.  Within one result the last row that addresses a cell decides
    its value: when no later row that is kept has the same derived name
    and category, the cell holds the parsed value of that row once the
    worker has returned; and a cell that no row of the result addresses
    holds what it held before. *)
Theorem later_row_wins (rts : analytics.DataRealtimeService)
    (metric gaDimensions : string) (st : State) (m : analytics.RealtimeData) :
  wf config st ->
  rts (requestFor config metric gaDimensions) = inl m ->
  length (analytics.Rows m) <> 1 ->
  wellShaped (analytics.Rows m) = true ->
  forallb rowValid (analytics.Rows m) = true ->
  exists st',
    collectMetric config ParseFloat rts metric gaDimensions st = Returned tt st'
    /\ (forall front back category action cell rest,
          analytics.Rows m = front ++ (category :: action :: cell :: rest) :: back ->
          strings.Contains category "(not set)" = false ->
          forallb (fun row => negb (addresses (derivedName action) category row)) back = true ->
          vectorOf st' (derivedName action) category = Some (value_of (ParseFloat cell)))
    /\ (forall L c,
          forallb (fun row => negb (addresses L c row)) (analytics.Rows m) = true ->
          vectorOf st' L c = vectorOf st L c).
Proof.
  intros Hwf Hrts Hlen Hshape Hvalid. rewrite collectMetric_unfold, Hrts.
  set (st0 := logRequest _ st).
  assert (Hall : forallb rowShaped (analytics.Rows m) = true).
  { destruct (analytics.Rows m) as [|r0 [|r1 rows]]; try exact Hshape.
    contradiction Hlen; reflexivity. }
  unfold interpret. rewrite (proj2 (Nat.eqb_neq _ _) Hlen).
  destruct (collect_rows config ParseFloat (analytics.Rows m) st0
              (wf_logRequest config _ _ Hwf) Hall Hvalid)
    as (st' & Hrun & _ & _ & _ & _ & _ & Hvec & _).
  exists st'. split; [exact Hrun|]. split.
  - intros front back category action cell rest Hrows Hcat Hback.
    rewrite Hvec, Hrows. apply specRows_last; assumption.
  - intros L c Hnone. rewrite Hvec. apply specRows_untouched, Hnone.
Qed.

End Taxonomy.

(** ** The sanitizer, once more *)

Lemma filter_filter (p : ascii -> bool) (s : string) :
  string_filter p (string_filter p s) = string_filter p s.
Proof. apply filter_id, forallb_filter. Qed.

(** X11.  Two dimension values get the same derived name exactly when
    they have the same letters and digits in the same order, whatever else
    they contain; so a value and the value stripped of everything else
    share one series. *)
Theorem buildMetricLabel_collision (a1 a2 : string) :
  (buildMetricLabel a1 = buildMetricLabel a2
   <-> string_filter is_alnum a1 = string_filter is_alnum a2)
  /\ buildMetricLabel (string_filter is_alnum a1) = buildMetricLabel a1.
Proof.
  rewrite !buildMetricLabel_eq, filter_filter. split; [|reflexivity]. split.
  - intros [= H]. exact H.
  - intros ->. reflexivity.
Qed.

(** X12.  Whatever the dimension value, empty or without any letter or
    digit included, the vector made for it has a valid descriptor: its
    name is a legal metric name of the form [ga_rt__] and letters and
    digits, so that [Register] cannot refuse it as invalid. *)
Theorem vector_descriptor_valid (action L : string) :
  buildMetricLabel action = Ok L ->
  prometheus.IsValidMetricName (prometheus.Name (gaugeOpts L)) = true
  /\ isVecName (prometheus.Name (gaugeOpts L)) = true
  /\ prometheus.descErr (vecDesc L) = false
  /\ forall r c, prometheus.register r c (vecDesc L) <> inr prometheus.InvalidDescriptor.
Proof.
  intros H. assert (HL : sanitized L) by (exists action; exact H).
  split; [exact (proj1 (vecName_facts L HL))|].
  split; [exact (isVecName_sanitized L HL)|].
  split; [exact (descErr_vecDesc L HL)|].
  intros r c. unfold prometheus.register. rewrite (descErr_vecDesc L HL).
  destruct (negb _); [discriminate|]. destruct (_ !! _); discriminate.
Qed.

(** ** Rows that are passed over *)

Lemma append_cons (c : ascii) (p q : string) : String c p +:+ q = String c (p +:+ q).
Proof. reflexivity. Qed.

Lemma HasPrefix_iff (s p : string) :
  strings.HasPrefix s p = true <-> exists q, s = p +:+ q.
Proof.
  revert s. induction p as [|c p IH]; intros s; cbn [strings.HasPrefix].
  - split; [eauto|reflexivity].
  - destruct s as [|d s].
    { split; [discriminate|]. intros [q H]. rewrite append_cons in H. discriminate. }
    destruct (Ascii.eqb_spec d c) as [->|Hne].
    + rewrite IH. split; intros [q H]; exists q; rewrite append_cons in *; congruence.
    + split; [discriminate|]. intros [q H]. rewrite append_cons in H.
      injection H as Hd _. contradiction.
Qed.

Lemma Contains_iff (s sub : string) :
  strings.Contains s sub = true <-> exists p q, s = p +:+ sub +:+ q.
Proof.
  induction s as [|c s IH]; cbn [strings.Contains]; rewrite orb_true_iff, HasPrefix_iff.
  - split.
    + intros [[q H]|H]; [|discriminate]. exists "", q. exact H.
    + intros (p & q & H). left. destruct p as [|d p]; [eauto|].
      rewrite append_cons in H. discriminate.
  - rewrite IH. split.
    + intros [[q H]|(p & q & H)]; [exists "", q; exact H|].
      exists (String c p), q. rewrite append_cons. congruence.
    + intros (p & q & H). destruct p as [|d p]; [left; eauto|].
      right. exists p, q. rewrite append_cons in H. congruence.
Qed.

(** X13.  A row is passed over whenever "(not set)" occurs anywhere in its
    first cell, not only when the cell is equal to it: the loop body then
    returns at once and leaves the state as it is, whatever the other
    cells are.  A row of one cell without that substring is not passed
    over: the read of its second cell panics. *)
Theorem row_passed_over (ParseFloat : string -> parsed) (category : string) (st : State) :
  ((exists p q, category = p +:+ "(not set)" +:+ q) ->
     forall rest, collectRow ParseFloat (category :: rest) st = Returned tt st)
  /\ (~ (exists p q, category = p +:+ "(not set)" +:+ q) ->
        collectRow ParseFloat [category] st = Panicked IndexOutOfRange st).
Proof.
  split.
  - intros H%Contains_iff rest. apply collectRow_skipped. exact H.
  - intros H. assert (Hc : strings.Contains category "(not set)" = false).
    { destruct (strings.Contains category "(not set)") eqn:E; [|reflexivity].
      apply Contains_iff in E. contradiction. }
    unfold collectRow, bind, index, ret. cbn [lookup list_lookup]. rewrite Hc. reflexivity.
Qed.

(** ** The dimension resolver, once more *)

(** X14.  [getDimensions] returns what the last entry of
    [config.Dimensions] has for the metric, joined with commas, whatever
    the entries before it hold: the empty string when the last entry has
    no list for the metric, and when there is no entry at all. *)
Theorem getDimensions_only_last (config : conf) (metric : string) :
  (Dimensions config = [] -> getDimensions config metric = "")
  /\ (forall entries entry,
        Dimensions config = entries ++ [entry] ->
        getDimensions config metric
        = match entry !! metric with
          | Some dims => strings.Join dims ","
          | None => ""
          end).
Proof.
  split.
  - intros H. rewrite getDimensions_last, H. reflexivity.
  - intros entries entry H. rewrite getDimensions_last, H, last_snoc.
    destruct (entry !! metric); reflexivity.
Qed.

(** ** The further properties on example data *)

Lemma exampleConfig_names : NoDup (scalarName <$> Metrics exampleConfig).
Proof. apply (bool_decide_unpack _). vm_compute. exact I. Qed.

Lemma exampleConfig_reachable :
  reachable exampleConfig strconv.ParseFloat (startState exampleConfig).
Proof. apply reach_init, init_returns. Qed.

Lemma init_exports_every_metric_witness :
  exists a, promGauge (startState exampleConfig) !! "rt:pageviews" = Some a
            /\ exportedAs (startState exampleConfig) (scalarDesc "rt:pageviews") = Some a
            /\ exportedScalar (startState exampleConfig) "rt:pageviews" = Some zero64.
Proof.
  apply (init_exports_every_metric exampleConfig exampleConfig_names eq_refl).
  apply list_elem_of_further, list_elem_of_here.
Defined.

Lemma scalar_write_is_exported_witness :
  exists st',
    collectMetric exampleConfig strconv.ParseFloat (serve [["42.5"]]) "rt:activeUsers" ""
      (startState exampleConfig) = Returned tt st'
    /\ exportedScalar st' "rt:activeUsers" = Some (dyadic 85 (-1)).
Proof.
  destruct (scalar_write_is_exported exampleConfig strconv.ParseFloat (serve [["42.5"]])
              "rt:activeUsers" "" (startState exampleConfig)
              (analytics.mkRealtimeData [["42.5"]]) "42.5" []
              exampleConfig_names eq_refl exampleConfig_reachable
              (list_elem_of_here _ _) eq_refl eq_refl)
    as (st' & Hrun & Hexp & _).
  exists st'. split; [exact Hrun|]. rewrite Hexp. vm_compute. reflexivity.
Defined.

Lemma initMetric_again_not_exported_witness :
  exists st1 st2,
    initMetric "rt:activeUsers" (startState exampleConfig) = Returned tt st1
    /\ collectMetric exampleConfig strconv.ParseFloat (serve [["42.5"]]) "rt:activeUsers" ""
         st1 = Returned tt st2
    /\ scalarOf st2 "rt:activeUsers" = Some (value_of (strconv.ParseFloat "42.5"))
    /\ exportedScalar st2 "rt:activeUsers" = Some zero64.
Proof.
  destruct (initMetric_again_not_exported "rt:activeUsers" (startState exampleConfig) 0
              (prometheus.Gauge (scalarDesc "rt:activeUsers") zero64))
    as (st1 & Hrun1 & _ & _ & _ & Hafter).
  - vm_compute. reflexivity.
  - vm_compute. reflexivity.
  - destruct (Hafter exampleConfig strconv.ParseFloat (serve [["42.5"]]) ""
                (analytics.mkRealtimeData [["42.5"]]) "42.5" [] eq_refl eq_refl)
      as (st2 & Hrun2 & Hsc & _ & _ & Hexp).
    exists st1, st2. split; [exact Hrun1|]. split; [exact Hrun2|]. split; [exact Hsc|].
    rewrite Hexp. vm_compute. reflexivity.
Defined.

Lemma name_clash_panics_witness :
  collectRow strconv.ParseFloat ["US"; "mobile"; "7"] (startState clashConfig)
  = Panicked (RegistrationError prometheus.InconsistentDescriptor)
             (withNewVec (derivedName "mobile") (startState clashConfig)).
Proof.
  apply (name_clash_panics clashConfig strconv.ParseFloat (startState clashConfig)
           "rt:_mobile" "US" "mobile" ["7"]).
  - apply list_elem_of_here.
  - vm_compute. reflexivity.
  - apply reach_init, init_returns.
  - reflexivity.
Defined.

Lemma registerMetricVec_never_fails_witness :
  exists a st' ch,
    registerMetricVec (derivedName "mobile") (startState exampleConfig) = Returned tt st'
    /\ promGaugeVec st' !! derivedName "mobile" = Some a
    /\ exportedAs st' (vecDesc (derivedName "mobile")) = Some a
    /\ heap st' !! a = Some (prometheus.GaugeVec (vecDesc (derivedName "mobile")) ch).
Proof.
  destruct (registerMetricVec_never_fails exampleConfig strconv.ParseFloat
              (startState exampleConfig) "mobile" eq_refl exampleConfig_reachable)
    as (a & st' & ch & H1 & H2 & H3 & H4 & _).
  exists a, st', ch. auto.
Defined.

Lemma worker_panics_only_witness :
  collectMetric exampleConfig strconv.ParseFloat (serve brokenRows) "rt:pageviews" ""
    (startState exampleConfig)
  = Panicked IndexOutOfRange
      (stateOf (collectMetric exampleConfig strconv.ParseFloat (serve brokenRows)
                  "rt:pageviews" "" (startState exampleConfig)))
  /\ workerPanic IndexOutOfRange.
Proof.
  assert (H : collectMetric exampleConfig strconv.ParseFloat (serve brokenRows)
                "rt:pageviews" "" (startState exampleConfig)
              = Panicked IndexOutOfRange
                  (stateOf (collectMetric exampleConfig strconv.ParseFloat (serve brokenRows)
                              "rt:pageviews" "" (startState exampleConfig))))
    by (vm_compute; reflexivity).
  split; [exact H|].
  apply (worker_panics_only exampleConfig strconv.ParseFloat (serve brokenRows)
           "rt:pageviews" "" (startState exampleConfig) _ IndexOutOfRange eq_refl
           exampleConfig_reachable (list_elem_of_further _ _ _ (list_elem_of_here _ _)) H).
Defined.

Lemma later_row_wins_witness :
  exists st',
    collectMetric exampleConfig strconv.ParseFloat (serve meetingRows) "rt:pageviews" ""
      (startState exampleConfig) = Returned tt st'
    /\ vectorOf st' (derivedName "mobile") "US" = Some (dyadic 2 0)
    /\ vectorOf st' (derivedName "tablet") "US" = None.
Proof.
  destruct (later_row_wins exampleConfig strconv.ParseFloat (serve meetingRows)
              "rt:pageviews" "" (startState exampleConfig)
              (analytics.mkRealtimeData meetingRows) exampleConfig_wf eq_refl)
    as (st' & Hrun & Hlast & Hnone).
  - cbn. lia.
  - reflexivity.
  - reflexivity.
  - exists st'. split; [exact Hrun|]. split.
    + change (derivedName "mobile") with (derivedName "mo bile").
      rewrite (Hlast [["US"; "mobile"; "1"]] [] "US" "mo bile" "2" [] eq_refl eq_refl eq_refl).
      vm_compute. reflexivity.
    + rewrite (Hnone (derivedName "tablet") "US") by (vm_compute; reflexivity).
      vm_compute. reflexivity.
Defined.

Lemma vector_descriptor_valid_witness :
  buildMetricLabel "" = Ok "rt:_"
  /\ prometheus.IsValidMetricName (prometheus.Name (gaugeOpts "rt:_")) = true
  /\ prometheus.descErr (vecDesc "rt:_") = false.
Proof.
  assert (H : buildMetricLabel "" = Ok "rt:_") by reflexivity.
  split; [exact H|].
  destruct (vector_descriptor_valid "" "rt:_" H) as (H1 & _ & H3 & _). auto.
Defined.

Lemma row_passed_over_witness :
  collectRow strconv.ParseFloat ["US (not set)"; "mobile"; "7"] (startState exampleConfig)
  = Returned tt (startState exampleConfig)
  /\ collectRow strconv.ParseFloat ["US"] (startState exampleConfig)
     = Panicked IndexOutOfRange (startState exampleConfig).
Proof.
  split.
  - apply (proj1 (row_passed_over strconv.ParseFloat "US (not set)" (startState exampleConfig))).
    exists "US ", "". reflexivity.
  - apply (proj2 (row_passed_over strconv.ParseFloat "US" (startState exampleConfig))).
    intros H%Contains_iff. vm_compute in H. discriminate.
Defined.

Lemma getDimensions_only_last_witness :
  getDimensions twoEntries "rt:pageviews" = ""
  /\ getDimensions twoEntries "rt:activeUsers" = "rt:country".
Proof.
  split.
  - exact (proj2 (getDimensions_only_last twoEntries "rt:pageviews")
             [{[ "rt:pageviews" := ["rt:pagePath"] ]}] {[ "rt:activeUsers" := ["rt:country"] ]}
             eq_refl).
  - exact (proj2 (getDimensions_only_last twoEntries "rt:activeUsers")
             [{[ "rt:pageviews" := ["rt:pagePath"] ]}] {[ "rt:activeUsers" := ["rt:country"] ]}
             eq_refl).
Defined.
